(** * Dependency discovery and staging: [find_and_copy_deps.py]

    A shallow embedding of the script's dependency-resolution engine
    (listing parser, per-binary lister, graph builder, transitive closure,
    stager), followed by the properties proved about it.

    Modelling conventions.
    - Python [str] values are Rocq strings, a character standing for a code
      point below 256.
    - [dict] is a [gmap], [set] is a [gset].  Where Python leaves the order
      of a set unspecified ([set.pop], iteration over a set) the order is
      supplied by the environment, so every statement holds for all orders.
    - The operating system (file system queries, [os.path], the [ldd] and
      [cygpath] subprocesses, the temporary directory) is a record of
      oracles, [Env].  A POSIX instance of [os.path] is given for the
      examples.
    - [sys.exit(n)] is the result [Exit n]; an uncaught Python exception is
      [Raise e].  State changes made before either of them persist.
    - The listing oracle gives the text of [ldd]'s standard output once it
      has been read and decoded; a run in which [ldd] cannot be started or
      prints bytes that do not decode is not described. *)

From Stdlib Require Import ZArith Lia Ascii String.
From stdpp Require Import gmap strings list fin_maps sorting.

#[local] Set Warnings "-clear-no-such-hyp".

Local Open Scope string_scope.
Local Open Scope list_scope.
Local Open Scope stdpp_scope.

(** ** Text primitives *)

Module Text.

Definition code (c : ascii) : N := N_of_ascii c.

Definition in_range (lo hi : N) (c : ascii) : bool :=
  (lo <=? code c)%N && (code c <=? hi)%N.

(** [str.isspace] on code points below 256. *)
Definition is_space (c : ascii) : bool :=
  in_range 9 13 c || in_range 28 32 c
  || (code c =? 133)%N || (code c =? 160)%N.

(** [str.lower] on code points below 256: A-Z and the Latin-1 capitals. *)
Definition lower_char (c : ascii) : ascii :=
  if in_range 65 90 c || (in_range 192 222 c && negb (code c =? 215)%N)
  then ascii_of_N (code c + 32) else c.

Fixpoint lower (s : string) : string :=
  match s with
  | EmptyString => EmptyString
  | String c s' => String (lower_char c) (lower s')
  end.

Fixpoint lstrip (s : string) : string :=
  match s with
  | EmptyString => EmptyString
  | String c s' => if is_space c then lstrip s' else s
  end.

Fixpoint rstrip (s : string) : string :=
  match s with
  | EmptyString => EmptyString
  | String c s' =>
      match rstrip s' with
      | EmptyString => if is_space c then EmptyString else String c EmptyString
      | r => String c r
      end
  end.

(** [str.strip()] *)
Definition strip (s : string) : string := rstrip (lstrip s).

(** [str.startswith] *)
Definition startswith (s p : string) : bool := String.prefix p s.

(** [needle in hay] *)
Fixpoint contains (needle hay : string) : bool :=
  String.prefix needle hay ||
  match hay with
  | EmptyString => false
  | String _ hay' => contains needle hay'
  end.

(** [str.endswith] *)
Fixpoint endswith (s p : string) : bool :=
  String.eqb s p ||
  match s with
  | EmptyString => false
  | String _ s' => endswith s' p
  end.

Fixpoint drop (n : nat) (s : string) : string :=
  match n, s with
  | O, _ => s
  | S n', String _ s' => drop n' s'
  | S _, EmptyString => EmptyString
  end.

Definition newline : ascii := ascii_of_N 10.

(** The successive values of [readline()] on a stream holding [s]: every
    line keeps its terminating newline, the last one may lack it, and no
    line is empty. *)
Fixpoint read_lines (s : string) : list string :=
  match s with
  | EmptyString => []
  | String c s' =>
      if Ascii.eqb c newline then String c EmptyString :: read_lines s'
      else match read_lines s' with
           | [] => [String c EmptyString]
           | l :: ls => String c l :: ls
           end
  end.

(** [bool(s)] for a string. *)
Definition truthy (s : string) : bool :=
  match s with EmptyString => false | _ => true end.

End Text.

(** ** The listing grammar

    The pattern compiled in [get_deps_for_binary] reads, piece by piece:
    start of text; group 1, one or more characters other than a space; the
    four characters space, equals sign, greater-than sign, space; group 2,
    one or more characters other than an opening parenthesis; optionally
    group 3, a space followed by group 4, any run of characters other than
    a newline; end of text.  [match] is written as the backtracking search
    Python performs: a greedy group first tries to take one more character
    and falls back to stopping where it is. *)

Module Grammar.
Import Text.

(** The end-of-text anchor without [re.MULTILINE]: at the end, or before a
    final newline. *)
Definition at_end (s : string) : bool :=
  match s with
  | EmptyString => true
  | String c EmptyString => Ascii.eqb c newline
  | _ => false
  end.

(** Group 4 followed by the anchor; the dot is any character but a newline. *)
Fixpoint dot_star_end (s : string) : bool :=
  match s with
  | EmptyString => true
  | String c s' => if Ascii.eqb c newline then at_end s else dot_star_end s'
  end.

(** The optional group 3 followed by the anchor. *)
Definition tail_ok (s : string) : bool :=
  match s with
  | String " " s' => dot_star_end s' || at_end s
  | _ => at_end s
  end.

(** Group 2 and what follows it: the text of group 2. *)
Fixpoint group2 (s : string) : option string :=
  match s with
  | EmptyString => None
  | String c s' =>
      if Ascii.eqb c "(" then None
      else match group2 s' with
           | Some g => Some (String c g)
           | None => if tail_ok s' then Some (String c EmptyString) else None
           end
  end.

(** The whole pattern: the texts of groups 1 and 2. *)
Fixpoint ldd_match (s : string) : option (string * string) :=
  match s with
  | EmptyString => None
  | String c s' =>
      if Ascii.eqb c " " then None
      else match ldd_match s' with
           | Some (g1, g2) => Some (String c g1, g2)
           | None =>
               if startswith s' " => "
               then match group2 (drop 4 s') with
                    | Some g2 => Some (String c EmptyString, g2)
                    | None => None
                    end
               else None
           end
  end.

End Grammar.

(** ** [posixpath] *)

Module Posix.
Import Text.

(** [p[p.rfind('/')+1:]] *)
Fixpoint basename (p : string) : string :=
  match p with
  | EmptyString => EmptyString
  | String c p' =>
      if contains "/" p then basename p' else p
  end.

(** [p[:p.rfind('/')+1]] *)
Fixpoint head_part (p : string) : string :=
  match p with
  | EmptyString => EmptyString
  | String c p' => if contains "/" p then String c (head_part p') else EmptyString
  end.

Fixpoint all_slashes (s : string) : bool :=
  match s with
  | EmptyString => true
  | String c s' => Ascii.eqb c "/" && all_slashes s'
  end.

Fixpoint rstrip_slashes (s : string) : string :=
  match s with
  | EmptyString => EmptyString
  | String c s' =>
      match rstrip_slashes s' with
      | EmptyString => if Ascii.eqb c "/" then EmptyString else String c EmptyString
      | r => String c r
      end
  end.

Definition dirname (p : string) : string :=
  let head := head_part p in
  if truthy head && negb (all_slashes head) then rstrip_slashes head else head.

Definition join (a b : string) : string :=
  if startswith b "/" then b
  else if negb (truthy a) || endswith a "/" then a +:+ b
  else a +:+ "/" +:+ b.

End Posix.

(** ** Results, events and the environment *)

Inductive exn :=
| KeyError (k : string)
| TypeError
| IndexError
| OSError.

(** How a computation ends.  [Timeout] is the only outcome with no Python
    counterpart: the iteration budget of a modelled loop ran out. *)
Inductive result (A : Type) :=
| Ok (a : A)
| Exit (code : Z)
| Raise (e : exn)
| Timeout.
Arguments Ok {A} a.
Arguments Exit {A} code.
Arguments Raise {A} e.
Arguments Timeout {A}.

(** [json_dict]: the two dictionaries the script builds and dumps. *)
Record json_dict := JsonDict {
  jd_binary_deps : gmap string (list string);
  jd_binary_locations : gmap string string
}.

(** What the script does to the outside world, in order. *)
Inductive event :=
| Print (s : string)
| Stderr (s : string)
| TmpCopyfile (src dst : string)
| Copy (src dst_dir : string)
| WriteJson (path : string) (doc : json_dict)
| WriteManifest (path : string) (text : string).

Record Env := {
  platform : string;
  path_basename : string -> string;
  path_dirname : string -> string;
  path_join : string -> string -> string;
  path_splitext : string -> string * string;
  path_exists : string -> bool;
  path_isfile : string -> bool;
  path_isdir : string -> bool;
  (** [os.path.samefile]; [None] when it raises *)
  path_samefile : string -> string -> option bool;
  (** the decoded standard output of [ldd path] *)
  ldd_stdout : string -> string;
  (** the decoded standard output of [cygpath -m path] *)
  cygpath_stdout : string -> string;
  (** the name [tempfile.TemporaryDirectory] hands out *)
  tmpdirname : string;
  (** which element [set.pop] removes, as an index into the elements *)
  set_pop_index : list string -> nat;
  (** the order in which a set of pairs is iterated *)
  set_iter_order : list (string * string) -> list (string * string);
  set_iter_order_perm : forall l, set_iter_order l ≡ₚ l
}.

(** ** [fix_location] and [get_deps_for_binary] *)

Section Lister.
Import Text.
Context (E : Env).

Definition fix_location (location_path : string) : result string :=
  if String.eqb (platform E) "win32" then
    match location_path with
    | EmptyString => Raise IndexError
    | String c _ =>
        if Ascii.eqb c "/" then Ok (strip (cygpath_stdout E location_path))
        else Ok location_path
    end
  else Ok location_path.

Definition system_libs_to_skip : list string :=
  if String.eqb (platform E) "linux" then
    [ "libc.so"; "libdl.so"; "libdrm.so"; "libm.so"; "libpthread.so";
      "libresolv.so"; "libselinux.so"; "libudev.so"; "libGL.so"; "libGLX.so";
      "libGLdispatch.so"; "libX11.so"; "libXau.so"; "libXdmcp.so";
      "libXext.so"; "libXfixes.so"; "libXrender.so" ]
  else [].

(** The condition guarding [continue] on a matched line. *)
Definition skipped (my_name dep_name ldd_dep_location : string) : bool :=
  String.eqb dep_name my_name
  || contains "/c/windows/system" (lower ldd_dep_location)
  || contains "/c/windows/winsxs/" (lower ldd_dep_location)
  || (Nat.ltb 0 (List.length system_libs_to_skip)
      && existsb (fun lib_name => contains lib_name ldd_dep_location)
                 system_libs_to_skip).

(** The [for x in search_directories] loop: the first directory holding a
    regular file named [dep_name]. *)
Fixpoint search (search_directories : list string) (dep_name : string)
  : option string :=
  match search_directories with
  | [] => None
  | x :: rest =>
      let alt_dep_location := path_join E x dep_name in
      if path_exists E alt_dep_location then
        if path_isfile E alt_dep_location then Some alt_dep_location
        else search rest dep_name
      else search rest dep_name
  end.

(** The test [if search_dep_location:]. *)
Definition found (search_dep_location : option string) : option string :=
  match search_dep_location with
  | Some l => if truthy l then Some l else None
  | None => None
  end.

Definition not_found_msg (binary_path dep_name : string) : string :=
  binary_path +:+ " depends on " +:+ dep_name
  +:+ " but ldd could not find its location.".

Definition not_in_search_path_msg (dep_name ldd_dep_location : string) : string :=
  "Could not find " +:+ dep_name +:+ " in search path, but ldd found it at "
  +:+ ldd_dep_location +:+ ". Please update search paths and run again."
  +:+ String newline EmptyString.

Definition unexpected_line_msg (line : string) : string :=
  "Unexpected line in ldd output: " +:+ line.

(** The benign lines of the listing. *)
Definition benign (line : string) : bool :=
  contains "linux-vdso.so.1" line
  || contains "ld-linux-x86-64.so" line
  || contains "statically linked" line.

(** One turn of the [while True] loop after the end-of-stream test: what is
    printed, and the set [ret] afterwards. *)
Definition process_line (binary_path my_name : string)
    (search_directories : list string) (ret : gset (string * string))
    (raw : string) : list event * result (gset (string * string)) :=
  let line := strip raw in
  match Grammar.ldd_match line with
  | Some (dep_name, ldd_dep_location) =>
      if skipped my_name dep_name ldd_dep_location then ([], Ok ret)
      else
        match found (search search_directories dep_name) with
        | Some search_dep_location =>
            match fix_location search_dep_location with
            | Ok l => ([], Ok ({[ (dep_name, l) ]} ∪ ret))
            | Exit c => ([], Exit c)
            | Raise e => ([], Raise e)
            | Timeout => ([], Timeout)
            end
        | None =>
            if String.eqb ldd_dep_location "not found" then
              ([Print (not_found_msg binary_path dep_name)], Exit 1)
            else
              ([Print (not_in_search_path_msg dep_name ldd_dep_location)], Exit 1)
        end
  | None =>
      if benign line then ([], Ok ret)
      else ([Print (unexpected_line_msg line)], Exit 1)
  end.

(** The [while True] loop over the lines [readline] returns. *)
Fixpoint read_loop (binary_path my_name : string)
    (search_directories : list string) (lines : list string)
    (ret : gset (string * string))
  : list event * result (gset (string * string)) :=
  match lines with
  | [] => ([], Ok ret)
  | raw :: rest =>
      if negb (truthy raw) then ([], Ok ret)
      else
        match process_line binary_path my_name search_directories ret raw with
        | (o, Ok ret') =>
            let '(o', r) :=
              read_loop binary_path my_name search_directories rest ret' in
            (o ++ o', r)
        | (o, r) => (o, r)
        end
  end.

Definition get_deps_for_binary (binary_path : string)
    (search_directories : list string)
  : list event * result (gset (string * string)) :=
  let my_name := path_basename E binary_path in
  read_loop binary_path my_name search_directories
            (read_lines (ldd_stdout E binary_path)) ∅.

End Lister.

(** ** [sorted] on strings *)

Definition str_le (a b : string) : Prop := String.leb a b = true.

#[global] Instance str_le_dec a b : Decision (str_le a b).
Proof. unfold str_le. apply _. Defined.

Definition sorted (l : list string) : list string := merge_sort str_le l.

(** ** [get_all_deps_for_binary] *)

Section Closure.

(** How the work list hands out its next element: the element and the list
    left. *)
Definition pop_policy : Type := list string -> option (string * list string).

(** [list.pop()]: the last element. *)
Definition list_pop : pop_policy := fun l =>
  match last l with
  | Some x => Some (x, removelast l)
  | None => None
  end.

(** The [while len(deps_list) > 0] loop. *)
Fixpoint closure_loop (pop : pop_policy) (edges : gmap string (list string))
    (fuel : nat) (ret : gset string) (deps_list : list string)
  : result (gset string) :=
  if Nat.ltb 0 (length deps_list) then
    match fuel with
    | O => Timeout
    | S fuel' =>
        match pop deps_list with
        | None => Raise IndexError
        | Some (dep, rest) =>
            if decide (dep ∈ ret) then closure_loop pop edges fuel' ret rest
            else
              match edges !! dep with
              | None => Raise (KeyError dep)
              | Some more =>
                  closure_loop pop edges fuel' ({[dep]} ∪ ret) (rest ++ more)
              end
        end
    end
  else Ok ret.

(** The total length of the edge lists of the keys outside [ret]. *)
Definition pending_weight (edges : gmap string (list string))
    (ret : gset string) : nat :=
  sum_list_with
    (fun kv : string * list string =>
       if decide (kv.1 ∈ ret) then O else length kv.2)
    (map_to_list edges).

(** An iteration budget the loop never exhausts. *)
Definition closure_fuel (edges : gmap string (list string))
    (deps_list : list string) : nat :=
  S (length deps_list + pending_weight edges ∅).

(** The function with the work-list order left open; [None] is Python's
    [None]. *)
Definition closure_with (pop : pop_policy) (binary_key_name : string)
    (json_dict : json_dict) : result (option (gset string)) :=
  match jd_binary_deps json_dict !! binary_key_name with
  | None => Ok None
  | Some l =>
      let deps_list := l in
      match closure_loop pop (jd_binary_deps json_dict)
              (closure_fuel (jd_binary_deps json_dict) deps_list) ∅ deps_list with
      | Ok ret => Ok (Some ret)
      | Exit c => Exit c
      | Raise e => Raise e
      | Timeout => Timeout
      end
  end.

Definition get_all_deps_for_binary (binary_key_name : string)
    (json_dict : json_dict) : result (option (gset string)) :=
  closure_with list_pop binary_key_name json_dict.

End Closure.

(** ** The JSON shape of [json_dict]

    [json.dump] and [json.load] are taken at the level of the document
    tree; the text encoding of a tree is the library's business. *)

Local Unset Elimination Schemes.
Inductive json :=
| JStr (s : string)
| JArr (items : list json)
| JObj (fields : list (string * json)).
Local Set Elimination Schemes.

Definition key_le {A} (a b : string * A) : Prop := str_le a.1 b.1.

#[global] Instance key_le_dec {A} (a b : string * A) : Decision (key_le a b).
Proof. unfold key_le. apply _. Defined.

(** The members of a dictionary in the order [sort_keys=True] writes them. *)
Definition sorted_items {A} (m : gmap string A) : list (string * A) :=
  merge_sort key_le (map_to_list m).

(** [json.dump(json_dict, ..., sort_keys=True)] as a tree. *)
Definition dump (d : json_dict) : json :=
  JObj [ ("binary_deps",
          JObj (prod_map id (fun l => JArr (JStr <$> l))
                  <$> sorted_items (jd_binary_deps d)));
         ("binary_locations",
          JObj (prod_map id JStr <$> sorted_items (jd_binary_locations d))) ].

(** A JSON object read back as a [dict]: members are inserted in document
    order, a repeated name keeps its last value. *)
Definition dict_of_fields {A} (fs : list (string * A)) : gmap string A :=
  fold_left (fun m kv => <[kv.1 := kv.2]> m) fs ∅.

Definition as_str (j : json) : option string :=
  match j with JStr s => Some s | _ => None end.

Definition as_str_list (j : json) : option (list string) :=
  match j with JArr l => mapM as_str l | _ => None end.

Definition as_fields (j : json) : option (list (string * json)) :=
  match j with JObj fs => Some fs | _ => None end.

Definition field_values {A} (f : json -> option A) (fs : list (string * json))
  : option (list (string * A)) :=
  mapM (fun kv : string * json =>
          match f kv.2 with Some a => Some (kv.1, a) | None => None end) fs.

(** [json.load] of a document of that shape, back into a [json_dict]. *)
Definition load (j : json) : option json_dict :=
  match as_fields j with
  | None => None
  | Some top =>
      let top := dict_of_fields top in
      match top !! "binary_deps", top !! "binary_locations" with
      | Some (JObj ds), Some (JObj ls) =>
          match field_values as_str_list ds, field_values as_str ls with
          | Some ds', Some ls' =>
              Some (JsonDict (dict_of_fields ds') (dict_of_fields ls'))
          | _, _ => None
          end
      | _, _ => None
      end
  end.

(** ** [main]: state, graph builder, stager *)

(** The mutable objects of [main] and the trace of what it did. *)
Record state := State {
  search_directories : list string;
  binary_name_to_location_map : gmap string string;
  binary_deps : gmap string (list string);
  deps_remaining : gset string;
  deps_visited : gset string;
  out : list event
}.

Definition set_search_directories (v : list string) (s : state) : state :=
  State v (binary_name_to_location_map s) (binary_deps s)
        (deps_remaining s) (deps_visited s) (out s).
Definition set_locations (v : gmap string string) (s : state) : state :=
  State (search_directories s) v (binary_deps s)
        (deps_remaining s) (deps_visited s) (out s).
Definition set_binary_deps (v : gmap string (list string)) (s : state) : state :=
  State (search_directories s) (binary_name_to_location_map s) v
        (deps_remaining s) (deps_visited s) (out s).
Definition set_remaining (v : gset string) (s : state) : state :=
  State (search_directories s) (binary_name_to_location_map s) (binary_deps s)
        v (deps_visited s) (out s).
Definition set_visited (v : gset string) (s : state) : state :=
  State (search_directories s) (binary_name_to_location_map s) (binary_deps s)
        (deps_remaining s) v (out s).
Definition set_out (v : list event) (s : state) : state :=
  State (search_directories s) (binary_name_to_location_map s) (binary_deps s)
        (deps_remaining s) (deps_visited s) v.

(** A statement: from a state to the state it leaves and how it ended.  The
    state survives [Exit] and [Raise]. *)
Definition M (A : Type) : Type := state -> state * result A.

Definition pure {A} (a : A) : M A := fun s => (s, Ok a).

Definition bind {A B} (m : M A) (k : A -> M B) : M B := fun s =>
  match m s with
  | (s', Ok a) => k a s'
  | (s', Exit c) => (s', Exit c)
  | (s', Raise e) => (s', Raise e)
  | (s', Timeout) => (s', Timeout)
  end.

Notation "'let*' x ':=' m 'in' k" := (bind m (fun x => k))
  (at level 10, x name, m at level 100, k at level 200).
Notation "m '>>' k" := (bind m (fun _ => k))
  (at level 100, k at level 200, right associativity).

Definition get : M state := fun s => (s, Ok s).
Definition modify (f : state -> state) : M unit := fun s => (f s, Ok tt).
Definition emit (e : event) : M unit :=
  modify (fun s => set_out (out s ++ [e]) s).
Definition sys_exit {A} (code : Z) : M A := fun s => (s, Exit code).
Definition raise {A} (e : exn) : M A := fun s => (s, Raise e).

(** A call of a function that only prints: its output joins the trace. *)
Definition call {A} (r : list event * result A) : M A := fun s =>
  (set_out (out s ++ r.1) s, r.2).

Record cmd_line_args := {
  json_arg : option string;
  manifest_arg : option string;
  target_binary : string;
  output_directory : string;
  search_directories_arg : list string
}.

(** [if cmd_line_args.json:] and [if cmd_line_args.manifest:] *)
Definition given (o : option string) : option string :=
  match o with
  | Some p => if Text.truthy p then Some p else None
  | None => None
  end.

Section Main.
Context (E : Env).

(** [set.pop()] *)
Definition set_pop (s : gset string) : option (string * gset string) :=
  let l := elements s in
  match l !! (set_pop_index E l `mod` length l)%nat with
  | Some x => Some (x, s ∖ {[x]})
  | None => None
  end.

(** [binary_name_to_location_map[x]] *)
Definition location_of (x : string) : M string :=
  let* s := get in
  match binary_name_to_location_map s !! x with
  | Some l => pure l
  | None => raise (KeyError x)
  end.

Definition conflict_msg (dep_name old new : string) : string :=
  dep_name +:+ " appears to have more than one location. "
  +:+ "                     " +:+ old +:+ " and " +:+ new.

(** The body of [for (dep_name, dep_location) in dep_info_list]; the value
    is [deps_for_this_library]. *)
Definition record_dep (dep : string * string)
    (deps_for_this_library : gset string) : M (gset string) :=
  let dep_name := dep.1 in
  let dep_location := dep.2 in
  let deps_for_this_library := {[dep_name]} ∪ deps_for_this_library in
  let* s := get in
  (match binary_name_to_location_map s !! dep_name with
   | None =>
       modify (set_locations
                 (<[dep_name := dep_location]> (binary_name_to_location_map s)))
   | Some old =>
       match path_samefile E old dep_location with
       | Some true => pure tt
       | Some false =>
           emit (Print (conflict_msg dep_name old dep_location)) >>
           sys_exit 1
       | None => raise OSError
       end
   end) >>
  let* s := get in
  (if decide (dep_name ∈ deps_visited s) then pure tt
   else modify (set_remaining ({[dep_name]} ∪ deps_remaining s))) >>
  pure deps_for_this_library.

Fixpoint for_deps (dep_info_list : list (string * string))
    (deps_for_this_library : gset string) : M (gset string) :=
  match dep_info_list with
  | [] => pure deps_for_this_library
  | dep :: rest =>
      let* acc := record_dep dep deps_for_this_library in
      for_deps rest acc
  end.

(** Lines 173 to 175: push the binary's directory, list, pop. *)
Definition list_deps (x : string) : M (gset (string * string)) :=
  let* loc := location_of x in
  modify (fun s =>
            set_search_directories
              (search_directories s ++ [path_dirname E loc]) s) >>
  let* loc := location_of x in
  let* s := get in
  let* dep_info_list :=
    call (get_deps_for_binary E loc (search_directories s)) in
  modify (fun s =>
            set_search_directories (removelast (search_directories s)) s) >>
  pure dep_info_list.

(** Lines 170 to 175: mark [x] visited, announce it, list it. *)
Definition mark_and_list (x : string) : M (gset (string * string)) :=
  modify (fun s => set_visited ({[x]} ∪ deps_visited s) s) >>
  emit (Print ("Finding dependencies for " +:+ x)) >>
  list_deps x.

(** The body of the loop past the [continue] test. *)
Definition visit (x : string) : M unit :=
  let* dep_info_list := mark_and_list x in
  let* deps_for_this_library :=
    for_deps (set_iter_order E (elements dep_info_list)) ∅ in
  let sorted_deps_list := sorted (elements deps_for_this_library) in
  modify (fun s =>
            set_binary_deps (<[x := sorted_deps_list]> (binary_deps s)) s).

(** The body of [while len(deps_remaining) > 0]. *)
Definition iteration : M unit :=
  let* s := get in
  match set_pop (deps_remaining s) with
  | None => raise (KeyError "pop from an empty set")
  | Some (x, remaining) =>
      modify (set_remaining remaining) >>
      if decide (x ∈ deps_visited s) then pure tt else visit x
  end.

Fixpoint while_remaining (fuel : nat) : M unit := fun s =>
  if Nat.ltb 0 (size (deps_remaining s)) then
    match fuel with
    | O => (s, Timeout)
    | S fuel' => (iteration >> while_remaining fuel') s
    end
  else (s, Ok tt).

(** The [for x in full_deps_list] loop that stages the files. *)
Fixpoint copy_all (output_directory : string) (full_deps_list : list string)
  : M unit :=
  match full_deps_list with
  | [] => pure tt
  | x :: rest =>
      let* src := location_of x in
      emit (Print (x +:+ " : " +:+ src)) >>
      emit (Copy src output_directory) >>
      copy_all output_directory rest
  end.

Definition quote : string := String (ascii_of_N 34) EmptyString.
Definition eol : string := String Text.newline EmptyString.

Definition manifest_text (target_binary : string) (full_deps_list : list string)
  : string :=
  "<?xml version=" +:+ quote +:+ "1.0" +:+ quote +:+ " encoding=" +:+ quote
  +:+ "UTF-8" +:+ quote +:+ " standalone=" +:+ quote +:+ "yes" +:+ quote
  +:+ "?>" +:+ eol
  +:+ "<assembly xmlns=" +:+ quote +:+ "urn:schemas-microsoft-com:asm.v1"
  +:+ quote +:+ " manifestVersion=" +:+ quote +:+ "1.0" +:+ quote +:+ ">" +:+ eol
  +:+ "  <assemblyIdentity name=" +:+ quote +:+ path_basename E target_binary
  +:+ quote +:+ " version=" +:+ quote +:+ "1.0.0.0" +:+ quote +:+ " type="
  +:+ quote +:+ "win32" +:+ quote +:+ " processorArchitecture=" +:+ quote
  +:+ "amd64" +:+ quote +:+ "/>" +:+ eol
  +:+ fold_left
        (fun acc x =>
           acc +:+ "  <file name=" +:+ quote +:+ x +:+ quote +:+ "></file>" +:+ eol)
        full_deps_list EmptyString
  +:+ "</assembly>".

(** Inside [with tempfile.TemporaryDirectory()], up to the loop; the value
    is [binary_key_name]. *)
Definition prepare (a : cmd_line_args) : M string :=
  emit (Print ("created temporary directory " +:+ tmpdirname E)) >>
  let binary_key_name := path_basename E (target_binary a) in
  let rename :=
    String.eqb (platform E) "win32" && Text.endswith (target_binary a) ".ofx" in
  let ldd_filename_path :=
    if rename then
      path_join E (tmpdirname E)
        ((path_splitext E (path_basename E (target_binary a))).1 +:+ ".dll")
    else target_binary a in
  (if rename then emit (TmpCopyfile (target_binary a) ldd_filename_path)
   else pure tt) >>
  modify (fun s =>
            set_locations
              (<[binary_key_name := ldd_filename_path]>
                 (binary_name_to_location_map s)) s) >>
  modify (fun s => set_remaining ({[binary_key_name]} ∪ deps_remaining s) s) >>
  pure binary_key_name.

(** From the end of the loop on: closure, copies, JSON, manifest. *)
Definition stage (a : cmd_line_args) (binary_key_name : string) : M unit :=
  let* s := get in
  let json_dict := JsonDict (binary_deps s) (binary_name_to_location_map s) in
  let* closure := call ([], get_all_deps_for_binary binary_key_name json_dict) in
  match closure with
  | None => raise TypeError
  | Some c =>
      let full_deps_list := sorted (elements c) in
      copy_all (output_directory a) full_deps_list >>
      (match given (json_arg a) with
       | Some path => emit (WriteJson path json_dict)
       | None => pure tt
       end) >>
      match given (manifest_arg a) with
      | Some path =>
          emit (WriteManifest path
                  (manifest_text (target_binary a) full_deps_list))
      | None => pure tt
      end
  end.

Definition traverse_and_stage (fuel : nat) (a : cmd_line_args) : M unit :=
  let* binary_key_name := prepare a in
  while_remaining fuel >>
  stage a binary_key_name.

(** [main] from the parsed command line on. *)
Definition main (fuel : nat) (a : cmd_line_args) : M unit :=
  if negb (path_exists E (target_binary a)) then
    emit (Stderr (target_binary a +:+ " does not exist." +:+ eol)) >>
    sys_exit 1
  else if negb (path_isfile E (target_binary a)) then
    emit (Stderr (target_binary a +:+ " is not a file." +:+ eol)) >>
    sys_exit 1
  else if negb (path_isdir E (output_directory a)) then sys_exit 1
  else traverse_and_stage fuel a.

(** The objects [main] starts from. *)
Definition initial (a : cmd_line_args) : state :=
  State (search_directories_arg a) ∅ ∅ ∅ ∅ [].

Definition run (fuel : nat) (a : cmd_line_args) : state * result unit :=
  main fuel a (initial a).

(** The state in which the loop is entered. *)
Definition entry (a : cmd_line_args) : state := (prepare a (initial a)).1.

(** The state at the loop test after [n] completed turns, if the loop gets
    that far. *)
Fixpoint loop_head (n : nat) (s : state) : option state :=
  match n with
  | O => Some s
  | S n' =>
      if Nat.ltb 0 (size (deps_remaining s)) then
        match iteration s with
        | (s', Ok _) => loop_head n' s'
        | _ => None
        end
      else None
  end.

(** [dep] is an already recorded name now resolved to another file. *)
Definition conflicting (s : state) (dep : string * string) : Prop :=
  exists old, binary_name_to_location_map s !! dep.1 = Some old
              /\ path_samefile E old dep.2 = Some false.

(** The turn that starts in [s] visits a binary and, going through its
    dependencies, comes to a conflicting one. *)
Definition meets_conflict (s : state) : Prop :=
  exists x remaining s2 dep_info_list k dep s1 acc,
    set_pop (deps_remaining s) = Some (x, remaining)
    /\ (x ∉ deps_visited s)
    /\ mark_and_list x (set_remaining remaining s) = (s2, Ok dep_info_list)
    /\ set_iter_order E (elements dep_info_list) !! k = Some dep
    /\ for_deps (take k (set_iter_order E (elements dep_info_list))) ∅ s2
       = (s1, Ok acc)
    /\ conflicting s1 dep.

End Main.

(** Files put into the output directory and documents written. *)
Definition artifact (e : event) : bool :=
  match e with
  | Copy _ _ | WriteJson _ _ | WriteManifest _ _ => true
  | Print _ | Stderr _ | TmpCopyfile _ _ => false
  end.

(** Nothing has been staged or written yet. *)
Definition quiet (s : state) : Prop := Forall (fun e => artifact e = false) (out s).

(** The two halves of the invariant of the graph builder. *)
Definition edges_covered (s : state) : Prop :=
  forall k ds d, binary_deps s !! k = Some ds -> d ∈ ds ->
    is_Some (binary_deps s !! d) \/ d ∈ deps_remaining s.

Definition keys_located (s : state) : Prop :=
  forall k, is_Some (binary_deps s !! k) ->
    is_Some (binary_name_to_location_map s !! k).

Definition checks_pass (E : Env) (a : cmd_line_args) : Prop :=
  path_exists E (target_binary a) = true
  /\ path_isfile E (target_binary a) = true
  /\ path_isdir E (output_directory a) = true.

(** ** A Linux machine for the examples *)

Module Linux.

Fixpoint assoc {A} (k : string) (l : list (string * A)) : option A :=
  match l with
  | [] => None
  | (k', v) :: rest => if String.eqb k k' then Some v else assoc k rest
  end.

(** The text [ldd] prints for a list of entries: a tab before and a newline
    after each. *)
Definition listing (entries : list string) : string :=
  fold_right
    (fun e acc => String (ascii_of_N 9) e +:+ String Text.newline acc)
    EmptyString entries.

(** [genericpath._splitext] with the POSIX separator. *)
Fixpoint only_dots (s : string) : bool :=
  match s with
  | EmptyString => true
  | String c s' => Ascii.eqb c "." && only_dots s'
  end.

Fixpoint split_last_dot (s : string) : option (string * string) :=
  match s with
  | EmptyString => None
  | String c s' =>
      match split_last_dot s' with
      | Some (a, b) => Some (String c a, b)
      | None => if Ascii.eqb c "." then Some (EmptyString, s) else None
      end
  end.

Definition splitext (p : string) : string * string :=
  let head := Posix.head_part p in
  match split_last_dot (Posix.basename p) with
  | Some (a, b) =>
      if only_dots a then (p, EmptyString) else (head +:+ a, b)
  | None => (p, EmptyString)
  end.

(** A machine given by its regular files with their identities, its
    directories, and what [ldd] prints for each path. *)
Definition machine (files : list (string * nat)) (dirs : list string)
    (ldd : list (string * list string)) (pop_index : list string -> nat) : Env :=
  {| platform := "linux";
     path_basename := Posix.basename;
     path_dirname := Posix.dirname;
     path_join := Posix.join;
     path_splitext := splitext;
     path_exists := fun p =>
       bool_decide (is_Some (assoc p files)) || bool_decide (p ∈ dirs);
     path_isfile := fun p => bool_decide (is_Some (assoc p files));
     path_isdir := fun p => bool_decide (p ∈ dirs);
     path_samefile := fun p q =>
       match assoc p files, assoc q files with
       | Some i, Some j => Some (Nat.eqb i j)
       | _, _ => None
       end;
     ldd_stdout := fun p =>
       match assoc p ldd with Some es => listing es | None => EmptyString end;
     cygpath_stdout := fun p => p;
     tmpdirname := "/tmp/tmpdir";
     set_pop_index := pop_index;
     set_iter_order := fun l => l;
     set_iter_order_perm := fun l => reflexivity l |}.

Definition args (target out_dir : string) (dirs : list string) : cmd_line_args :=
  {| json_arg := Some "deps.json"; manifest_arg := Some "app.manifest";
     target_binary := target; output_directory := out_dir;
     search_directories_arg := dirs |}.

(** The scenario of the specification: [app] needs [libA.so] and [libB.so],
    [libA.so] needs [libC.so]. *)
Definition scenario : Env :=
  machine
    [ ("/opt/app/app", 1); ("/opt/lib/libA.so", 2); ("/opt/lib/libB.so", 3);
      ("/opt/lib/libC.so", 4) ]
    [ "/out"; "/opt/lib"; "/opt/app" ]
    [ ("/opt/app/app",
       [ "linux-vdso.so.1 (0x00007ffc)";
         "libA.so => /usr/lib/libA.so (0x00007f01)";
         "libB.so => not found";
         "libc.so.6 => /lib/x86_64-linux-gnu/libc.so.6 (0x00007f02)";
         "/lib64/ld-linux-x86-64.so.2 (0x00007f03)" ]);
      ("/opt/lib/libA.so",
       [ "libC.so => /opt/lib/libC.so (0x00007f04)";
         "libA.so => /opt/lib/libA.so (0x00007f05)" ]);
      ("/opt/lib/libB.so", [ "statically linked" ]);
      ("/opt/lib/libC.so", []) ]
    (fun _ => O).

(** [ldd] cannot locate [libX.so] and no search directory holds it. *)
Definition missing : Env :=
  machine [ ("/opt/app/app", 1) ] [ "/out"; "/opt/app" ]
    [ ("/opt/app/app", [ "libX.so => not found" ]) ]
    (fun _ => O).

(** [ldd] locates [libX.so] where no search directory looks. *)
Definition elsewhere : Env :=
  machine [ ("/opt/app/app", 1); ("/usr/local/lib/libX.so", 2) ]
    [ "/out"; "/opt/app"; "/usr/local/lib" ]
    [ ("/opt/app/app", [ "libX.so => /usr/local/lib/libX.so (0x00007f01)" ]) ]
    (fun _ => O).

(** A listing with a line of neither known shape. *)
Definition garbled : Env :=
  machine [ ("/opt/app/app", 1); ("/opt/app/libA.so", 2) ]
    [ "/out"; "/opt/app" ]
    [ ("/opt/app/app",
       [ "libA.so => /opt/app/libA.so (0x00007f01)";
         "/lib/ld-linux-aarch64.so.1 (0x0000ffff)" ]);
      ("/opt/app/libA.so", []) ]
    (fun _ => O).

(** A library listed under a name with a directory part, whose own listing
    names it the same way. *)
Definition nested : Env :=
  machine [ ("/app/app", 1); ("/app/sub/libA.so", 2) ]
    [ "/out"; "/app"; "/app/sub" ]
    [ ("/app/app", [ "sub/libA.so => /app/sub/libA.so (0x00007f01)" ]);
      ("/app/sub/libA.so", [ "sub/libA.so => /app/sub/libA.so (0x00007f02)" ]) ]
    (fun _ => O).

(** Two different files named [libY.so], each next to one binary. *)
Definition two_copies : Env :=
  machine
    [ ("/opt/app/app", 1); ("/opt/app/libY.so", 5);
      ("/opt/app/plug/libA.so", 2); ("/opt/app/plug/libY.so", 6) ]
    [ "/out"; "/opt/app"; "/opt/app/plug" ]
    [ ("/opt/app/app",
       [ "libY.so => /opt/app/libY.so (0x00007f01)";
         "plug/libA.so => /opt/app/plug/libA.so (0x00007f02)" ]);
      ("/opt/app/libY.so", [ "statically linked" ]);
      ("/opt/app/plug/libA.so",
       [ "libY.so => /opt/app/plug/libY.so (0x00007f03)" ]) ]
    (fun _ => O).

(** A library whose own listing names the executable that needs it. *)
Definition mutual : Env :=
  machine [ ("/opt/app/app", 1); ("/opt/app/libA.so", 2) ]
    [ "/out"; "/opt/app" ]
    [ ("/opt/app/app", [ "libA.so => /opt/app/libA.so (0x00007f01)" ]);
      ("/opt/app/libA.so", [ "app => /opt/app/app (0x00007f02)" ]) ]
    (fun _ => O).


End Linux.

(** ** Graph vocabulary for the statements *)

(** [reach G a b]: [b] is reached from [a] along one or more edges. *)
Inductive reach (G : gmap string (list string)) (a : string) : string -> Prop :=
| reach_edge ds b : G !! a = Some ds -> b ∈ ds -> reach G a b
| reach_step b ds c :
    reach G a b -> G !! b = Some ds -> c ∈ ds -> reach G a c.

(** Every key named in an edge list has an edge list of its own. *)
Definition closed (G : gmap string (list string)) : Prop :=
  forall k ds d, G !! k = Some ds -> d ∈ ds -> is_Some (G !! d).

Definition acyclic (G : gmap string (list string)) : Prop :=
  forall k, ~ reach G k k.

(** A work-list order: from a non-empty list it removes one element. *)
Definition valid_pop (pop : pop_policy) : Prop :=
  forall l, l <> [] -> exists x l', pop l = Some (x, l') /\ l ≡ₚ x :: l'.

(** [list.pop(0)]: the first element, an order other than the script's. *)
Definition list_pop_first : pop_policy := fun l =>
  match l with
  | x :: l' => Some (x, l')
  | [] => None
  end.

(** ** Sample graphs *)

(** A graph with a cycle through the root: the closure holds the root. *)
Definition cyclic_dict : json_dict :=
  JsonDict (<["a" := ["b"]]> (<["b" := ["a"]]> ∅)) ∅.

(** The graph of the scenario. *)
Definition chain_dict : json_dict :=
  JsonDict (<["app" := ["libA.so"; "libB.so"]]>
              (<["libA.so" := ["libC.so"]]>
                 (<["libB.so" := []]> (<["libC.so" := []]> ∅)))) ∅.

(** A height along which every edge of [chain_dict] descends. *)
Definition chain_rank (k : string) : nat :=
  match Linux.assoc k [("app", 3); ("libA.so", 2); ("libB.so", 1)] with
  | Some n => n
  | None => 0
  end.

(** An edge list naming a key that has none. *)
Definition dangling_dict : json_dict := JsonDict (<["a" := ["b"]]> ∅) ∅.

(** ** Sample runs *)

Definition scenario_args : cmd_line_args :=
  Linux.args "/opt/app/app" "/out" ["/opt/lib"].

(** The same command line with no search directory. *)
Definition bare_args : cmd_line_args :=
  Linux.args "/opt/app/app" "/out" [].

(** The run of the scenario at the loop test after two turns, and when the
    loop has ended. *)
Definition scenario_head : state :=
  default (entry Linux.scenario scenario_args)
    (loop_head Linux.scenario 2 (entry Linux.scenario scenario_args)).

Definition scenario_end : state :=
  (while_remaining Linux.scenario 10 (entry Linux.scenario scenario_args)).1.

(** The graph the builder leaves on [Linux.mutual]. *)
Definition mutual_dict : json_dict :=
  let s := (while_remaining Linux.mutual 10
              (entry Linux.mutual bare_args)).1 in
  JsonDict (binary_deps s) (binary_name_to_location_map s).



(** The run on [Linux.two_copies] at the loop test after two turns. *)
Definition two_copies_head : state :=
  default (entry Linux.two_copies bare_args)
    (loop_head Linux.two_copies 2 (entry Linux.two_copies bare_args)).


(** ** Predicates of the proofs *)

(** What the loop maintains: everything collected or queued is reachable
    from the root and has an edge list if collected, and every edge leaving
    the root or a collected key ends in a collected or queued key. *)
Definition loop_inv (G : gmap string (list string)) (root : string)
    (ret : gset string) (deps : list string) : Prop :=
  (forall k, k ∈ ret -> reach G root k /\ is_Some (G !! k))
  /\ (forall k, k ∈ deps -> reach G root k)
  /\ (forall k ds d, k ∈ ret -> G !! k = Some ds -> d ∈ ds -> d ∈ ret \/ d ∈ deps)
  /\ (forall ds d, G !! root = Some ds -> d ∈ ds -> d ∈ ret \/ d ∈ deps).


(** Every pair in the returned set was found by the search. *)
Definition verified (E : Env) (dirs : list string)
    (ret : gset (string * string)) : Prop :=
  forall n loc, (n, loc) ∈ ret ->
    exists d, d ∈ dirs
              /\ path_exists E (path_join E d n) = true
              /\ path_isfile E (path_join E d n) = true
              /\ fix_location E (path_join E d n) = Ok loc.

(** From a quiet state the statement leaves a quiet state, and if it exits
    it does so with code 1. *)
Definition Tame {A} (m : M A) : Prop :=
  forall s, (quiet s -> quiet (m s).1) /\ (forall c, (m s).2 = Exit c -> c = 1%Z).

(** The statement never exits. *)
Definition NoExit {A} (m : M A) : Prop := forall s c, (m s).2 <> Exit c.

(** What the [for] loop over the dependencies named [names] may change:
    locations are only added, every name gets one, and the names not yet
    visited join the pending set. *)
Definition extends (names : gset string) (s s' : state) : Prop :=
  search_directories s' = search_directories s
  /\ binary_deps s' = binary_deps s
  /\ deps_visited s' = deps_visited s
  /\ (forall k, is_Some (binary_name_to_location_map s !! k) ->
                is_Some (binary_name_to_location_map s' !! k))
  /\ (forall k, k ∈ names -> is_Some (binary_name_to_location_map s' !! k))
  /\ (forall k, k ∈ deps_remaining s' <->
                k ∈ deps_remaining s \/ (k ∈ names /\ k ∉ deps_visited s)).

(** The invariant at the loop test: the two halves claimed, together with
    what makes them inductive. *)
Definition graph_inv (s : state) : Prop :=
  edges_covered s
  /\ keys_located s
  /\ (forall k, k ∈ deps_visited s <-> is_Some (binary_deps s !! k))
  /\ (forall k, k ∈ deps_remaining s ->
                is_Some (binary_name_to_location_map s !! k)).

(** ** Vocabulary of the further properties *)

(** The line [raw] is an entry for [dep_name] that passes the filter and that
    the search resolves to [loc]. *)
Definition resolved_entry (E : Env) (my_name : string) (dirs : list string)
    (raw dep_name loc : string) : Prop :=
  exists ldd_dep_location p,
    Grammar.ldd_match (Text.strip raw) = Some (dep_name, ldd_dep_location)
    /\ skipped E my_name dep_name ldd_dep_location = false
    /\ found (search E dirs dep_name) = Some p
    /\ fix_location E p = Ok loc.

(** The line [raw] makes the lister abort, printing [msg]. *)
Definition aborting_line (E : Env) (binary_path my_name : string)
    (dirs : list string) (raw msg : string) : Prop :=
  (Grammar.ldd_match (Text.strip raw) = None
   /\ benign (Text.strip raw) = false
   /\ msg = unexpected_line_msg (Text.strip raw))
  \/ (exists dep_name ldd_dep_location,
        Grammar.ldd_match (Text.strip raw) = Some (dep_name, ldd_dep_location)
        /\ skipped E my_name dep_name ldd_dep_location = false
        /\ found (search E dirs dep_name) = None
        /\ msg = if String.eqb ldd_dep_location "not found"
                 then not_found_msg binary_path dep_name
                 else not_in_search_path_msg dep_name ldd_dep_location).

(** The files copied into the output directory, in order. *)
Definition copies (tr : list event) : list (string * string) :=
  omap (fun e => match e with Copy src dir => Some (src, dir) | _ => None end) tr.

(** The documents written, in order. *)
Definition documents (tr : list event) : list event :=
  omap (fun e => match e with
                 | WriteJson _ _ | WriteManifest _ _ => Some e
                 | _ => None
                 end) tr.

(** The statement leaves every recorded location as it is, however it
    ends. *)
Definition Keeps {A} (m : M A) : Prop :=
  forall s,
    binary_name_to_location_map s ⊆ binary_name_to_location_map (m s).1.

(** No key whose recorded location bears the key as its base name is among
    its own dependencies. *)
Definition no_self_edge (E : Env) (s : state) : Prop :=
  forall k ds loc,
    binary_deps s !! k = Some ds ->
    binary_name_to_location_map s !! k = Some loc ->
    path_basename E loc = k ->
    k ∉ ds.

(** Every key that is pending or has an edge list is the root or is
    reachable from the root. *)
Definition rooted (root : string) (s : state) : Prop :=
  forall k, k ∈ deps_remaining s \/ is_Some (binary_deps s !! k) ->
    k = root \/ reach (binary_deps s) root k.

#[global] Instance str_le_total : Total str_le.
Proof. intros a b. apply String.leb_total. Qed.

(** The names of a set of pairs of name and location. *)
Definition names_of (deps : gset (string * string)) : gset string :=
  set_map fst deps.

(** The documents a successful run writes, as asked for on the command
    line. *)
Definition documents_asked (E : Env) (a : cmd_line_args) (jd : json_dict)
    (full_deps_list : list string) : list event :=
  match given (json_arg a) with
  | Some path => [WriteJson path jd]
  | None => []
  end
  ++ match given (manifest_arg a) with
     | Some path =>
         [WriteManifest path (manifest_text E (target_binary a) full_deps_list)]
     | None => []
     end.

(** [c] is the copy of the file recorded for [x] into [dir]. *)
Definition copy_of (s : state) (dir : string) (x : string)
    (c : string * string) : Prop :=
  binary_name_to_location_map s !! x = Some c.1 /\ c.2 = dir.

(** [loc] is the location of a regular file named [k] found in some
    directory. *)
Definition located_by_search (E : Env) (k loc : string) : Prop :=
  exists d,
    path_exists E (path_join E d k) = true
    /\ path_isfile E (path_join E d k) = true
    /\ fix_location E (path_join E d k) = Ok loc.

(** Every recorded location is the root's, as recorded before the loop, or
    was found by the search. *)
Definition locations_verified (E : Env) (a : cmd_line_args) (s : state) : Prop :=
  forall k loc,
    binary_name_to_location_map s !! k = Some loc ->
    binary_name_to_location_map (entry E a) !! k = Some loc
    \/ located_by_search E k loc.

(** What the loop prints when it starts on [x]. *)
Definition announcement (x : string) : event :=
  Print ("Finding dependencies for " +:+ x).

(** * Properties

    ** The text layer on sample lines *)

Example strip_line :
  Text.strip (String (ascii_of_N 9) "libz.so.1 => /lib/libz.so.1 (0x1)" +:+ String Text.newline "")
  = "libz.so.1 => /lib/libz.so.1 (0x1)".
Proof. reflexivity. Qed.

Example match_found :
  Grammar.ldd_match "libz.so.1 => /lib/libz.so.1 (0x00007f)" = Some ("libz.so.1", "/lib/libz.so.1").
Proof. reflexivity. Qed.

Example match_not_found :
  Grammar.ldd_match "libq.so => not found" = Some ("libq.so", "not found").
Proof. reflexivity. Qed.

Example match_vdso : Grammar.ldd_match "linux-vdso.so.1 (0x00007ffd)" = None.
Proof. reflexivity. Qed.

Example match_paren_first : Grammar.ldd_match "a => (0x1)" = None.
Proof. reflexivity. Qed.

Example match_inner_spaces :
  Grammar.ldd_match "a => /x y/z (1) (2)" = Some ("a", "/x y/z").
Proof. reflexivity. Qed.

Example posix_paths :
  Posix.basename "/app/bin/app" = "app" /\ Posix.dirname "/app/bin/app" = "/app/bin"
  /\ Posix.dirname "/app" = "/" /\ Posix.dirname "app" = ""
  /\ Posix.join "/app" "sub/libA.so" = "/app/sub/libA.so"
  /\ Posix.join "/app/" "libA.so" = "/app/libA.so"
  /\ Posix.join "/app" "/abs/libA.so" = "/abs/libA.so"
  /\ Posix.join "" "libA.so" = "libA.so"
  /\ Posix.basename "/app/sub/libA.so" = "libA.so".
Proof. repeat split. Qed.

Example lines_of_stream :
  Text.read_lines ("ab" +:+ String Text.newline "cd") = ["ab" +:+ String Text.newline ""; "cd"].
Proof. reflexivity. Qed.

(** ** The transitive closure *)

Section ClosureFacts.
Context (pop : pop_policy) (Hpop : valid_pop pop).
Context (G : gmap string (list string)) (root : string).

Lemma closure_loop_eq fuel ret deps :
  closure_loop pop G fuel ret deps =
  if Nat.ltb 0 (length deps) then
    match fuel with
    | O => Timeout
    | S fuel' =>
        match pop deps with
        | None => Raise IndexError
        | Some (dep, rest) =>
            if decide (dep ∈ ret) then closure_loop pop G fuel' ret rest
            else
              match G !! dep with
              | None => Raise (KeyError dep)
              | Some more =>
                  closure_loop pop G fuel' ({[dep]} ∪ ret) (rest ++ more)
              end
        end
    end
  else Ok ret.
Proof. destruct fuel; reflexivity. Qed.

Lemma weight_skip (l : list (string * list string)) k (ret : gset string) :
  k ∉ l.*1 ->
  sum_list_with (fun kv : string * list string =>
                   if decide (kv.1 ∈ {[k]} ∪ ret) then O else length kv.2) l
  = sum_list_with (fun kv : string * list string =>
                     if decide (kv.1 ∈ ret) then O else length kv.2) l.
Proof.
  induction l as [|[k' ds'] l IH]; simpl; [done|].
  intros Hk. rewrite IH by set_solver.
  assert (k' <> k) by set_solver.
  repeat case_decide; set_solver.
Qed.

Lemma weight_take (l : list (string * list string)) k ds (ret : gset string) :
  NoDup l.*1 -> (k, ds) ∈ l -> k ∉ ret ->
  sum_list_with (fun kv : string * list string =>
                   if decide (kv.1 ∈ {[k]} ∪ ret) then O else length kv.2) l
  + length ds
  = sum_list_with (fun kv : string * list string =>
                     if decide (kv.1 ∈ ret) then O else length kv.2) l.
Proof.
  induction l as [|[k' ds'] l IH]; simpl; intros Hnd Hin Hret.
  - by apply elem_of_nil in Hin.
  - apply NoDup_cons in Hnd as [Hk' Hnd].
    apply elem_of_cons in Hin as [Heq|Hin].
    + injection Heq as <- <-. rewrite weight_skip by done.
      rewrite decide_True by set_solver. rewrite decide_False by done. lia.
    + assert (k' <> k).
      { intros ->. apply Hk'. apply list_elem_of_fmap. by exists (k, ds). }
      rewrite <- (IH Hnd Hin Hret).
      repeat case_decide; set_solver || lia.
Qed.

Lemma pending_weight_take k ds (ret : gset string) :
  G !! k = Some ds -> k ∉ ret ->
  pending_weight G ({[k]} ∪ ret) + length ds = pending_weight G ret.
Proof.
  intros Hk Hret. unfold pending_weight. apply weight_take; [| |done].
  - apply NoDup_fst_map_to_list.
  - by apply elem_of_map_to_list.
Qed.

Lemma loop_inv_done ret k :
  loop_inv G root ret [] -> reach G root k -> k ∈ ret.
Proof.
  intros (_ & _ & Hstep & Hroot). induction 1 as [ds b Hr Hb|b ds c _ IH Hb Hc].
  - destruct (Hroot _ _ Hr Hb) as [?|Hnil]; [done|]. by apply elem_of_nil in Hnil.
  - destruct (Hstep _ _ _ IH Hb Hc) as [?|Hnil]; [done|]. by apply elem_of_nil in Hnil.
Qed.

Lemma closure_loop_spec fuel ret deps :
  loop_inv G root ret deps ->
  length deps + pending_weight G ret < fuel ->
  match closure_loop pop G fuel ret deps with
  | Ok res =>
      (forall k, k ∈ res <-> reach G root k)
      /\ (forall k, k ∈ res -> is_Some (G !! k))
  | Raise (KeyError k) => reach G root k /\ G !! k = None
  | _ => False
  end.
Proof.
  revert ret deps. induction fuel as [|fuel IH]; intros ret deps Hinv Hfuel; [lia|].
  rewrite closure_loop_eq.
  destruct deps as [|d0 deps0].
  { simpl. split; [|intros k Hk; by apply (proj1 Hinv)].
    intros k; split; [intros Hk; by apply (proj1 Hinv) | by apply loop_inv_done]. }
  set (deps := d0 :: deps0) in *.
  replace (Nat.ltb 0 (length deps)) with true by done.
  destruct (Hpop deps) as (x & rest & -> & Hperm); [done|].
  assert (Hlen : length deps = S (length rest)) by (by rewrite Hperm).
  assert (Hmem : forall k, k ∈ deps <-> k = x \/ k ∈ rest).
  { intros k. rewrite Hperm. apply elem_of_cons. }
  destruct Hinv as (Hret & Hdeps & Hstep & Hroot).
  case_decide as Hx.
  - apply IH; [|lia]. split; [|split; [|split]].
    + done.
    + intros k Hk. apply Hdeps, Hmem. by right.
    + intros k ds d Hk Hks Hd.
      destruct (Hstep _ _ _ Hk Hks Hd) as [?|Hin]; [by left|].
      apply Hmem in Hin as [->|?]; [by left | by right].
    + intros ds d Hr Hd.
      destruct (Hroot _ _ Hr Hd) as [?|Hin]; [by left|].
      apply Hmem in Hin as [->|?]; [by left | by right].
  - assert (Hrx : reach G root x) by (apply Hdeps, Hmem; by left).
    destruct (G !! x) as [more|] eqn:Hgx; [|done].
    apply IH.
    + split; [|split; [|split]].
      * intros k [->%elem_of_singleton|Hk]%elem_of_union; [|by apply Hret].
        split; [done | by eexists].
      * intros k [Hk|Hk]%elem_of_app; [apply Hdeps, Hmem; by right|].
        by eapply reach_step.
      * intros k ds d Hk Hks Hd. rewrite elem_of_app, elem_of_union.
        apply elem_of_union in Hk as [->%elem_of_singleton|Hk].
        { right; right. congruence. }
        destruct (Hstep _ _ _ Hk Hks Hd) as [?|Hin]; [by left; right|].
        apply Hmem in Hin as [->|?];
          [left; left; by apply elem_of_singleton | right; by left].
      * intros ds d Hr Hd. rewrite elem_of_app, elem_of_union.
        destruct (Hroot _ _ Hr Hd) as [?|Hin]; [by left; right|].
        apply Hmem in Hin as [->|?];
          [left; left; by apply elem_of_singleton | right; by left].
    + rewrite length_app. pose proof (pending_weight_take _ _ _ Hgx Hx). lia.
Qed.

Lemma loop_inv_start ds : G !! root = Some ds -> loop_inv G root ∅ ds.
Proof.
  intros Hr. repeat split; try set_solver.
  intros k Hk. by eapply reach_edge.
Qed.

(** The outcome of the closure at a root with an edge list: the reachable
    set, or a [KeyError] at a reachable key with no edge list. *)
Lemma closure_with_spec jd :
  jd_binary_deps jd = G -> is_Some (G !! root) ->
  match closure_with pop root jd with
  | Ok (Some res) =>
      (forall k, k ∈ res <-> reach G root k)
      /\ (forall k, k ∈ res -> is_Some (G !! k))
  | Raise (KeyError k) => reach G root k /\ G !! k = None
  | _ => False
  end.
Proof.
  intros HG [ds Hr]. unfold closure_with. rewrite HG, Hr.
  pose proof (closure_loop_spec (closure_fuel G ds) ∅ ds
                (loop_inv_start _ Hr)) as Hspec.
  unfold closure_fuel in *.
  destruct (closure_loop _ _ _ _ _) as [res|c|[]|]; apply Hspec; lia.
Qed.

End ClosureFacts.

Lemma list_pop_valid : valid_pop list_pop.
Proof.
  intros l Hl. destruct l as [|x l] using rev_ind; [done|].
  exists x, l. unfold list_pop. rewrite last_snoc, removelast_last.
  split; [done|]. by rewrite Permutation_app_comm.
Qed.

Lemma list_pop_first_valid : valid_pop list_pop_first.
Proof. intros [|x l] Hl; [done|]. by exists x, l. Qed.

Example cycle_graph_closure :
  get_all_deps_for_binary "a"
    (JsonDict (<["a" := ["b"]]> (<["b" := ["a"]]> ∅)) ∅)
  = Ok (Some ({["a"]} ∪ {["b"]})).
Proof. vm_compute. reflexivity. Qed.

(** C3 fails as stated: on a machine where [libA.so] lists [app] back, the
    graph the builder leaves has an edge list for the root [app], and the
    closure of [app] contains [app]; the run goes on to copy [app] itself. *)
Lemma closure_contains_root_on_cycle :
  (while_remaining Linux.mutual 10 (entry Linux.mutual bare_args)).2
  = Ok tt
  /\ jd_binary_deps mutual_dict !! "app" = Some ["libA.so"]
  /\ jd_binary_deps mutual_dict !! "libA.so" = Some ["app"]
  /\ (exists res, get_all_deps_for_binary "app" mutual_dict = Ok (Some res)
                  /\ "app" ∈ res)
  /\ Copy "/opt/app/app" "/out" ∈ out (run Linux.mutual 10 bare_args).1.
Proof.
  split; [vm_compute; reflexivity|]. split; [vm_compute; reflexivity|].
  split; [vm_compute; reflexivity|]. split.
  - exists ({["app"]} ∪ {["libA.so"]}).
    split; [vm_compute; reflexivity | set_solver].
  - apply list_elem_of_In. vm_compute.
    repeat first [left; reflexivity | right].
Qed.

(** C3, amended: when the root has an edge list and is not reachable from
    itself along one or more edges, a set returned by the closure never
    contains the root; and on a graph closed under its edge lists a set is
    returned. *)
Theorem closure_excludes_root (jd : json_dict) (root : string) :
  is_Some (jd_binary_deps jd !! root) ->
  ~ reach (jd_binary_deps jd) root root ->
  (forall res, get_all_deps_for_binary root jd = Ok (Some res) -> root ∉ res)
  /\ (closed (jd_binary_deps jd) ->
      exists res, get_all_deps_for_binary root jd = Ok (Some res)).
Proof.
  intros Hroot Hself.
  pose proof (closure_with_spec list_pop list_pop_valid _ root jd eq_refl Hroot)
    as Hspec.
  unfold get_all_deps_for_binary. split.
  - intros res Hres. rewrite Hres in Hspec. intros Hin.
    apply Hself. by apply Hspec.
  - intros Hclosed.
    destruct (closure_with list_pop root jd) as [[res|]|c|[]|]; try done.
    + by exists res.
    + destruct Hspec as [Hreach Hnone].
      assert (is_Some (jd_binary_deps jd !! k)) as [? ?]; [|congruence].
      inversion Hreach; subst; by eapply Hclosed.
Qed.


Lemma closed_check (G : gmap string (list string)) :
  map_Forall (fun _ ds => Forall (fun d => is_Some (G !! d)) ds) G -> closed G.
Proof.
  intros Hall k ds d Hk Hd. specialize (Hall k ds Hk).
  rewrite Forall_forall in Hall. by apply Hall.
Qed.

Lemma reach_rank (G : gmap string (list string)) (rank : string -> nat) a b :
  map_Forall (fun k ds => Forall (fun d => rank d < rank k) ds) G ->
  reach G a b -> rank b < rank a.
Proof.
  intros Hall. induction 1 as [ds b Ha Hb|b ds c _ IH Hb Hc].
  - specialize (Hall a ds Ha). rewrite Forall_forall in Hall. by apply Hall.
  - specialize (Hall b ds Hb). rewrite Forall_forall in Hall.
    specialize (Hall c Hc). lia.
Qed.

Lemma acyclic_check (G : gmap string (list string)) (rank : string -> nat) :
  map_Forall (fun k ds => Forall (fun d => rank d < rank k) ds) G -> acyclic G.
Proof. intros Hall k Hk. pose proof (reach_rank G rank k k Hall Hk). lia. Qed.

Example chain_closure :
  get_all_deps_for_binary "app" chain_dict
  = Ok (Some ({["libA.so"]} ∪ {["libB.so"]} ∪ {["libC.so"]}))
  /\ closure_with list_pop_first "app" chain_dict
     = Ok (Some ({["libA.so"]} ∪ {["libB.so"]} ∪ {["libC.so"]})).
Proof. split; vm_compute; reflexivity. Qed.

(** A binary with no dependencies has an empty closure. *)
Lemma closure_of_leaf (jd : json_dict) (root : string) :
  jd_binary_deps jd !! root = Some [] ->
  get_all_deps_for_binary root jd = Ok (Some ∅).
Proof.
  intros H. unfold get_all_deps_for_binary, closure_with. rewrite H.
  reflexivity.
Qed.

(** C10: a root without an edge list yields [None] and no exception; a root
    with an edge list from which a key without an edge list is reachable
    makes the lookup of such a key raise [KeyError]. *)
Theorem closure_partial (jd : json_dict) (root : string) :
  (jd_binary_deps jd !! root = None ->
   get_all_deps_for_binary root jd = Ok None)
  /\ (is_Some (jd_binary_deps jd !! root) ->
      (exists k, reach (jd_binary_deps jd) root k /\ jd_binary_deps jd !! k = None) ->
      exists k, reach (jd_binary_deps jd) root k
                /\ jd_binary_deps jd !! k = None
                /\ get_all_deps_for_binary root jd = Raise (KeyError k)).
Proof.
  split.
  - intros H. unfold get_all_deps_for_binary, closure_with. by rewrite H.
  - intros Hroot (k & Hreach & Hnone).
    pose proof (closure_with_spec list_pop list_pop_valid _ root jd eq_refl Hroot)
      as Hspec.
    unfold get_all_deps_for_binary.
    destruct (closure_with list_pop root jd) as [[res|]|c|[k'| | |]|]; try done.
    + destruct Hspec as [Hmem Hdom].
      apply Hmem in Hreach. apply Hdom in Hreach as [? ?]. congruence.
    + exists k'. by destruct Hspec.
Qed.

Lemma closure_partial_witness :
  (jd_binary_deps dangling_dict !! "z" = None
   /\ get_all_deps_for_binary "z" dangling_dict = Ok None)
  /\ is_Some (jd_binary_deps dangling_dict !! "a")
  /\ (exists k, reach (jd_binary_deps dangling_dict) "a" k
                /\ jd_binary_deps dangling_dict !! k = None)
  /\ exists k, reach (jd_binary_deps dangling_dict) "a" k
               /\ jd_binary_deps dangling_dict !! k = None
               /\ get_all_deps_for_binary "a" dangling_dict = Raise (KeyError k).
Proof.
  assert (Hz : jd_binary_deps dangling_dict !! "z" = None) by reflexivity.
  assert (Ha : is_Some (jd_binary_deps dangling_dict !! "a")) by (by eexists).
  assert (Hb : exists k, reach (jd_binary_deps dangling_dict) "a" k
                         /\ jd_binary_deps dangling_dict !! k = None).
  { exists "b". split; [|reflexivity].
    apply (reach_edge _ "a" ["b"] "b"); [reflexivity | apply list_elem_of_here]. }
  split; [split; [done | exact (proj1 (closure_partial dangling_dict "z") Hz)]|].
  split; [done|]. split; [done|].
  exact (proj2 (closure_partial dangling_dict "a") Ha Hb).
Defined.

Example dangling_closure :
  get_all_deps_for_binary "a" dangling_dict = Raise (KeyError "b").
Proof. vm_compute. reflexivity. Qed.

(** ** The JSON round trip *)

Lemma dict_of_fields_lookup {A} (l : list (string * A)) (acc : gmap string A) k :
  NoDup l.*1 ->
  fold_left (fun m kv => <[kv.1 := kv.2]> m) l acc !! k
  = match (list_to_map l : gmap string A) !! k with
    | Some v => Some v
    | None => acc !! k
    end.
Proof.
  revert acc. induction l as [|[k0 v0] l IH]; intros acc Hnd; simpl; [done|].
  apply NoDup_cons in Hnd as [Hk0 Hnd]. rewrite IH by done.
  destruct (decide (k = k0)) as [->|Hne].
  - rewrite (not_elem_of_list_to_map_1 _ _ Hk0). by rewrite !lookup_insert_eq.
  - by rewrite !lookup_insert_ne.
Qed.

Lemma dict_of_sorted_items {A} (m : gmap string A) :
  dict_of_fields (sorted_items m) = m.
Proof.
  assert (Hperm : sorted_items m ≡ₚ map_to_list m)
    by apply merge_sort_Permutation.
  assert (Hnd : NoDup (sorted_items m).*1).
  { rewrite Hperm. apply NoDup_fst_map_to_list. }
  apply map_eq. intros k. unfold dict_of_fields.
  rewrite dict_of_fields_lookup by done. rewrite lookup_empty.
  rewrite (list_to_map_proper _ _ Hnd Hperm), list_to_map_to_list.
  by destruct (m !! k).
Qed.

Lemma field_values_fmap {A} (f : json -> option A) (g : A -> json)
    (l : list (string * A)) :
  (forall a, f (g a) = Some a) ->
  field_values f (prod_map id g <$> l) = Some l.
Proof.
  intros Hfg. unfold field_values. apply mapM_fmap_Some.
  intros [k a]. simpl. by rewrite Hfg.
Qed.

Lemma load_dump (d : json_dict) : load (dump d) = Some d.
Proof.
  destruct d as [deps locs]. unfold load, dump. simpl. unfold dict_of_fields at 1 2.
  simpl. rewrite lookup_insert_ne by done. rewrite !lookup_insert_eq.
  rewrite (field_values_fmap as_str_list).
  2:{ intros l. simpl. by apply mapM_fmap_Some. }
  rewrite (field_values_fmap as_str) by done.
  by rewrite !dict_of_sorted_items.
Qed.

(** C9: dumping [json_dict] to its JSON shape and loading it back gives a
    structure on which the closure of any root is the closure computed on
    the original. *)
Theorem closure_after_round_trip (jd : json_dict) (root : string) :
  exists jd', load (dump jd) = Some jd'
              /\ get_all_deps_for_binary root jd'
                 = get_all_deps_for_binary root jd.
Proof. exists jd. split; [apply load_dump | done]. Qed.

(** ** The per-binary lister *)

Section ListerFacts.
Import Text.
Context (E : Env).

Lemma read_lines_truthy s l : l ∈ read_lines s -> truthy l = true.
Proof.
  revert l. induction s as [|c s IH]; simpl; intros l Hl.
  - by apply elem_of_nil in Hl.
  - destruct (Ascii.eqb c newline).
    + apply elem_of_cons in Hl as [->|Hl]; [done | by apply IH].
    + destruct (read_lines s) as [|l0 ls].
      * by apply list_elem_of_singleton in Hl as ->.
      * apply elem_of_cons in Hl as [->|Hl]; [done|].
        apply IH. by right.
Qed.

Lemma fix_location_ok l : truthy l = true -> exists l', fix_location E l = Ok l'.
Proof.
  unfold fix_location. destruct l as [|c l]; [done|]. intros _.
  destruct (String.eqb _ _); [destruct (Ascii.eqb _ _)|]; by eexists.
Qed.

Lemma found_Some o l : found o = Some l -> o = Some l /\ truthy l = true.
Proof.
  destruct o as [l'|]; simpl; [|done].
  destruct (truthy l') eqn:Ht; [|done]. by intros [= ->].
Qed.

Lemma search_Some dirs n p :
  search E dirs n = Some p ->
  exists d, d ∈ dirs /\ p = path_join E d n
            /\ path_exists E p = true /\ path_isfile E p = true.
Proof.
  induction dirs as [|d dirs IH]; simpl; [done|].
  destruct (path_exists E (path_join E d n)) eqn:Hex.
  - destruct (path_isfile E (path_join E d n)) eqn:Hfile.
    + intros [= <-]. exists d. split; [apply list_elem_of_here | done].
    + intros (d' & ? & ?)%IH. exists d'. split; [by right | done].
  - intros (d' & ? & ?)%IH. exists d'. split; [by right | done].
Qed.

(** A turn of the loop either goes on silently or prints one message and
    exits with code 1. *)
Lemma process_line_cases binary_path my_name dirs ret raw :
  (exists ret', process_line E binary_path my_name dirs ret raw = ([], Ok ret'))
  \/ (exists msg,
        process_line E binary_path my_name dirs ret raw = ([Print msg], Exit 1)).
Proof.
  unfold process_line.
  destruct (Grammar.ldd_match (strip raw)) as [[n l]|].
  - destruct (skipped E my_name n l); [left; by eexists|].
    destruct (found (search E dirs n)) as [p|] eqn:Hf.
    + apply found_Some in Hf as [_ Ht].
      destruct (fix_location_ok p Ht) as [p' ->]. left; by eexists.
    + destruct (String.eqb l "not found"); right; by eexists.
  - destruct (benign (strip raw)); [left | right]; by eexists.
Qed.



(** [get_deps_for_binary] ends in one of two ways. *)
Lemma read_loop_cases binary_path my_name dirs lines ret :
  (exists ret', read_loop E binary_path my_name dirs lines ret = ([], Ok ret'))
  \/ (exists msg,
        read_loop E binary_path my_name dirs lines ret = ([Print msg], Exit 1)).
Proof.
  revert ret. induction lines as [|l lines IH]; intros ret; simpl.
  - left; by eexists.
  - destruct (truthy l); simpl; [|left; by eexists].
    destruct (process_line_cases binary_path my_name dirs ret l)
      as [[ret' ->]|[msg ->]]; [|right; by eexists].
    destruct (IH ret') as [[ret'' ->]|[msg ->]]; [left | right]; by eexists.
Qed.

Lemma process_line_verified binary_path my_name dirs ret raw o ret' :
  verified E dirs ret ->
  process_line E binary_path my_name dirs ret raw = (o, Ok ret') ->
  verified E dirs ret'.
Proof.
  intros Hv. unfold process_line.
  destruct (Grammar.ldd_match (strip raw)) as [[n l]|].
  - destruct (skipped E my_name n l); [by intros [= _ <-]|].
    destruct (found (search E dirs n)) as [p|] eqn:Hf.
    + apply found_Some in Hf as [Hs _].
      apply search_Some in Hs as (d & Hd & -> & Hex & Hfile).
      destruct (fix_location E (path_join E d n)) as [p'| | |] eqn:Hfix; try done.
      intros [= _ <-] n' loc' [Heq%elem_of_singleton|Hin]%elem_of_union.
      * injection Heq as -> ->. by exists d.
      * by apply Hv.
    + by destruct (String.eqb l "not found").
  - destruct (benign (strip raw)); [by intros [= _ <-] | done].
Qed.

Lemma read_loop_verified binary_path my_name dirs lines ret o ret' :
  verified E dirs ret ->
  read_loop E binary_path my_name dirs lines ret = (o, Ok ret') ->
  verified E dirs ret'.
Proof.
  revert ret o. induction lines as [|l lines IH]; intros ret o Hv; simpl.
  - by intros [= _ <-].
  - destruct (truthy l); simpl; [|by intros [= _ <-]].
    destruct (process_line E binary_path my_name dirs ret l) as [o1 [ret1| | |]] eqn:Hp;
      try done.
    destruct (read_loop E binary_path my_name dirs lines ret1) as [o2 r2] eqn:Hl.
    intros [= _ ->]. eapply IH; [|done].
    by eapply process_line_verified.
Qed.

End ListerFacts.



Example not_found_is_fatal :
  get_deps_for_binary Linux.missing "/opt/app/app" ["/opt/lib"; "/opt/app"]
  = ([Print "/opt/app/app depends on libX.so but ldd could not find its location."],
     Exit 1).
Proof. vm_compute. reflexivity. Qed.

Example located_elsewhere_is_fatal :
  get_deps_for_binary Linux.elsewhere "/opt/app/app" ["/opt/app"]
  = ([Print ("Could not find libX.so in search path, but ldd found it at "
             +:+ "/usr/local/lib/libX.so. Please update search paths and run again."
             +:+ String Text.newline "")],
     Exit 1).
Proof. vm_compute. reflexivity. Qed.



Example garbled_listing :
  get_deps_for_binary Linux.garbled "/opt/app/app" ["/opt/app"]
  = ([Print "Unexpected line in ldd output: /lib/ld-linux-aarch64.so.1 (0x0000ffff)"],
     Exit 1).
Proof. vm_compute. reflexivity. Qed.

(** ** Filtered entries *)

Section FilterFacts.
Import Text.
Context (E : Env).

Lemma prefix_lower p l :
  String.prefix p l = true -> String.prefix (lower p) (lower l) = true.
Proof.
  revert l. induction p as [|a p IH]; intros l; simpl.
  { intros _. by destruct (lower l). }
  destruct l as [|b l]; simpl; [done|].
  destruct (ascii_dec a b) as [->|]; [|done].
  intros H. destruct (ascii_dec (lower_char b) (lower_char b)); [by apply IH | done].
Qed.

(** A match of lower-case text in any letter case. *)
Lemma contains_lower p l :
  contains p l = true -> contains (lower p) (lower l) = true.
Proof.
  induction l as [|b l IH]; simpl.
  - rewrite !orb_false_r. apply (prefix_lower p "").
  - intros [H|H]%orb_true_iff; apply orb_true_iff.
    + left. apply (prefix_lower p (String b l) H).
    + right. by apply IH.
Qed.

Lemma skipped_true my_name dep_name ldd_dep_location :
  dep_name = my_name
  \/ contains "/c/windows/system" (lower ldd_dep_location) = true
  \/ contains "/c/windows/winsxs/" (lower ldd_dep_location) = true
  \/ (exists lib_name, lib_name ∈ system_libs_to_skip E
                       /\ contains lib_name ldd_dep_location = true) ->
  skipped E my_name dep_name ldd_dep_location = true.
Proof.
  unfold skipped. intros [->|[H|[H|(lib & Hlib & H)]]].
  - by rewrite String.eqb_refl.
  - rewrite H. by rewrite orb_true_r.
  - rewrite H. by rewrite !orb_true_r.
  - apply orb_true_iff. right. apply andb_true_iff. split.
    + destruct (system_libs_to_skip E); [by apply elem_of_nil in Hlib | done].
    + apply existsb_exists. exists lib. split; [by apply list_elem_of_In | done].
Qed.

Lemma read_loop_skip binary_path my_name dirs pre raw post ret :
  truthy raw = true ->
  (forall ret', process_line E binary_path my_name dirs ret' raw = ([], Ok ret')) ->
  read_loop E binary_path my_name dirs (pre ++ raw :: post) ret
  = read_loop E binary_path my_name dirs (pre ++ post) ret.
Proof.
  intros Ht Hskip. revert ret. induction pre as [|l pre IH]; intros ret; simpl.
  - rewrite Ht, Hskip. simpl. by destruct (read_loop _ _ _ _ _ _).
  - destruct (truthy l); simpl; [|done].
    destruct (process_line E binary_path my_name dirs ret l) as [o [ret1| | |]];
      try done.
    by rewrite IH.
Qed.

End FilterFacts.

(** C6 fails as stated: the library recorded under the key [sub/libA.so]
    is listed with an entry named [sub/libA.so], the run succeeds, and the
    graph holds the edge from [sub/libA.so] to itself. *)
Lemma self_named_entry_adds_edge :
  let r := run Linux.nested 10 (Linux.args "/app/app" "/out" ["/app"]) in
  r.2 = Ok tt
  /\ binary_name_to_location_map r.1 !! "sub/libA.so" = Some "/app/sub/libA.so"
  /\ Grammar.ldd_match
       (Text.strip (ldd_stdout Linux.nested "/app/sub/libA.so"))
     = Some ("sub/libA.so", "/app/sub/libA.so")
  /\ binary_deps r.1 !! "sub/libA.so" = Some ["sub/libA.so"].
Proof. vm_compute. repeat split. Qed.

(** C6, amended: an entry whose name is the base name of the path the
    binary is listed under, or whose reported location contains, in any
    letter case, one of the two Windows system paths, or contains the name
    of a configured system library, leaves the result set as it was and
    prints nothing; the lister returns what it returns on the listing
    without that line, so the entry adds no edge and no location. *)
Theorem filtered_entry_adds_nothing (E : Env) (binary_path : string)
    (dirs : list string) (raw dep_name ldd_dep_location : string) :
  Grammar.ldd_match (Text.strip raw) = Some (dep_name, ldd_dep_location) ->
  dep_name = path_basename E binary_path
  \/ Text.contains "/c/windows/system" (Text.lower ldd_dep_location) = true
  \/ Text.contains "/c/windows/winsxs/" (Text.lower ldd_dep_location) = true
  \/ (exists lib_name, lib_name ∈ system_libs_to_skip E
                       /\ Text.contains lib_name ldd_dep_location = true) ->
  (forall ret,
     process_line E binary_path (path_basename E binary_path) dirs ret raw
     = ([], Ok ret))
  /\ (forall pre post,
        Text.read_lines (ldd_stdout E binary_path) = pre ++ raw :: post ->
        get_deps_for_binary E binary_path dirs
        = read_loop E binary_path (path_basename E binary_path) dirs
            (pre ++ post) ∅).
Proof.
  intros Hm Hskip.
  assert (Hline : forall ret,
    process_line E binary_path (path_basename E binary_path) dirs ret raw
    = ([], Ok ret)).
  { intros ret. unfold process_line. rewrite Hm.
    by rewrite (skipped_true E _ _ _ Hskip). }
  split; [done|]. intros pre post Hlines.
  unfold get_deps_for_binary. rewrite Hlines.
  apply read_loop_skip; [|done].
  apply (read_lines_truthy (ldd_stdout E binary_path)).
  rewrite Hlines. apply elem_of_app. right. apply list_elem_of_here.
Qed.

Lemma filtered_entry_adds_nothing_witness :
  let raw := String (ascii_of_N 9)
               "libc.so.6 => /lib/x86_64-linux-gnu/libc.so.6 (0x00007f02)"
             +:+ String Text.newline "" in
  Grammar.ldd_match (Text.strip raw)
  = Some ("libc.so.6", "/lib/x86_64-linux-gnu/libc.so.6")
  /\ (exists lib_name, lib_name ∈ system_libs_to_skip Linux.scenario
        /\ Text.contains lib_name "/lib/x86_64-linux-gnu/libc.so.6" = true)
  /\ forall ret,
       process_line Linux.scenario "/opt/app/app"
         (path_basename Linux.scenario "/opt/app/app") ["/opt/lib"] ret raw
       = ([], Ok ret).
Proof.
  assert (Hlib : exists lib_name, lib_name ∈ system_libs_to_skip Linux.scenario
            /\ Text.contains lib_name "/lib/x86_64-linux-gnu/libc.so.6" = true).
  { exists "libc.so". split; [apply list_elem_of_here | reflexivity]. }
  intros raw. split; [reflexivity|]. split; [exact Hlib|].
  exact (proj1 (filtered_entry_adds_nothing Linux.scenario "/opt/app/app"
                  ["/opt/lib"] raw "libc.so.6" "/lib/x86_64-linux-gnu/libc.so.6"
                  eq_refl (or_intror (or_intror (or_intror Hlib))))).
Defined.

Example self_entry_is_filtered :
  get_deps_for_binary Linux.scenario "/opt/lib/libA.so" ["/opt/lib"]
  = ([], Ok {[ ("libC.so", "/opt/lib/libC.so") ]}).
Proof. vm_compute. reflexivity. Qed.

(** ** The search-directory list around one listing *)

Section ListDepsFacts.
Context (E : Env).

Lemma get_deps_cases binary_path dirs :
  (exists ret, get_deps_for_binary E binary_path dirs = ([], Ok ret))
  \/ (exists msg, get_deps_for_binary E binary_path dirs = ([Print msg], Exit 1)).
Proof. apply read_loop_cases. Qed.

Lemma list_deps_unfold x s :
  list_deps E x s =
  match binary_name_to_location_map s !! x with
  | None => (s, Raise (KeyError x))
  | Some loc =>
      let pushed := search_directories s ++ [path_dirname E loc] in
      let r := get_deps_for_binary E loc pushed in
      let s1 := set_out (out s ++ r.1) (set_search_directories pushed s) in
      match r.2 with
      | Ok d => (set_search_directories (removelast pushed) s1, Ok d)
      | Exit c => (s1, Exit c)
      | Raise e => (s1, Raise e)
      | Timeout => (s1, Timeout)
      end
  end.
Proof.
  unfold list_deps, location_of, bind, get, modify, call, pure, raise. simpl.
  destruct (binary_name_to_location_map s !! x) as [loc|] eqn:Hloc; simpl; [|done].
  rewrite Hloc. simpl.
  by destruct (get_deps_for_binary E loc _) as [o [d|c|e|]].
Qed.

End ListDepsFacts.

(** C2 fails as stated: when the listing of [app] aborts on an entry that
    cannot be found, the directory pushed for [app] is still on the list. *)
Lemma pushed_directory_stays_on_abort :
  let s := entry Linux.missing (Linux.args "/opt/app/app" "/out" ["/opt/lib"]) in
  search_directories s = ["/opt/lib"]
  /\ (list_deps Linux.missing "app" s).2 = Exit 1
  /\ search_directories (list_deps Linux.missing "app" s).1
     = ["/opt/lib"; "/opt/app"]
  /\ search_directories
       (run Linux.missing 10 (Linux.args "/opt/app/app" "/out" ["/opt/lib"])).1
     = ["/opt/lib"; "/opt/app"].
Proof. vm_compute. repeat split. Qed.

(** C2, amended: when the per-binary listing step returns, the
    search-directory list is exactly what the caller supplied; when it
    fails to look up the binary's location nothing was pushed; and when the
    listing aborts, it does so with exit code 1 and with the directory of
    the binary still at the end of the list. *)
Theorem search_directories_after_listing (E : Env) (x : string) (s : state) :
  match list_deps E x s with
  | (s', Ok _) => search_directories s' = search_directories s
  | (s', Exit c) =>
      c = 1%Z
      /\ exists loc, binary_name_to_location_map s !! x = Some loc
                     /\ search_directories s'
                        = search_directories s ++ [path_dirname E loc]
  | (s', Raise e) =>
      e = KeyError x /\ binary_name_to_location_map s !! x = None /\ s' = s
  | (_, Timeout) => False
  end.
Proof.
  rewrite list_deps_unfold.
  destruct (binary_name_to_location_map s !! x) as [loc|]; [|done].
  cbv zeta.
  destruct (get_deps_cases E loc (search_directories s ++ [path_dirname E loc]))
    as [[ret ->]|[msg ->]]; simpl.
  - apply removelast_last.
  - split; [done|]. by exists loc.
Qed.

Example listing_restores_directories :
  let s := entry Linux.scenario (Linux.args "/opt/app/app" "/out" ["/opt/lib"]) in
  search_directories (list_deps Linux.scenario "app" s).1 = ["/opt/lib"]
  /\ (list_deps Linux.scenario "app" s).2
     = Ok ({[ ("libA.so", "/opt/lib/libA.so") ]}
           ∪ {[ ("libB.so", "/opt/lib/libB.so") ]}).
Proof. vm_compute. split; reflexivity. Qed.

(** ** What a statement may do to the trace and how it may exit *)

Section Discipline.
Context (E : Env).

Lemma Tame_pure {A} (a : A) : Tame (pure a).
Proof. by intros s. Qed.

Lemma Tame_bind {A B} (m : M A) (k : A -> M B) :
  Tame m -> (forall a, Tame (k a)) -> Tame (bind m k).
Proof.
  intros Hm Hk s. unfold bind. specialize (Hm s).
  destruct (m s) as [s1 [a|c|e|]]; simpl in *.
  - destruct (Hk a s1) as [Hq Hc]. split; [|done].
    intros Hs. apply Hq. by apply Hm.
  - destruct Hm as [Hq Hc]. split; [done|]. intros c0 [= <-]. by apply Hc.
  - by destruct Hm.
  - by destruct Hm.
Qed.

Lemma Tame_get : Tame get.
Proof. by intros s. Qed.

Lemma Tame_modify (f : state -> state) :
  (forall s, out (f s) = out s) -> Tame (modify f).
Proof. intros Hf s. unfold modify, quiet. simpl. by rewrite Hf. Qed.

Lemma Tame_emit e : artifact e = false -> Tame (emit e).
Proof.
  intros He s. unfold emit, modify, quiet. simpl. split; [|done].
  intros Hs. apply Forall_app. split; [done|]. by constructor.
Qed.

Lemma Tame_exit {A} : Tame (sys_exit (A := A) 1).
Proof. intros s. simpl. split; [done|]. by intros c [= <-]. Qed.

Lemma Tame_raise {A} e : Tame (raise (A := A) e).
Proof. by intros s. Qed.

Lemma Tame_get_deps binary_path dirs :
  Tame (call (get_deps_for_binary E binary_path dirs)).
Proof.
  intros s. unfold call, quiet.
  destruct (get_deps_cases E binary_path dirs) as [[ret ->]|[msg ->]]; simpl.
  - by rewrite app_nil_r.
  - split; [|by intros c [= <-]].
    intros Hs. apply Forall_app. split; [done|]. by constructor.
Qed.

Lemma Tame_location_of x : Tame (location_of x).
Proof.
  apply Tame_bind; [apply Tame_get|]. intros s.
  destruct (_ !! x); [apply Tame_pure | apply Tame_raise].
Qed.

Lemma Tame_list_deps x : Tame (list_deps E x).
Proof.
  unfold list_deps.
  apply Tame_bind; [apply Tame_location_of | intros loc].
  apply Tame_bind; [by apply Tame_modify | intros _].
  apply Tame_bind; [apply Tame_location_of | intros loc2].
  apply Tame_bind; [apply Tame_get | intros s].
  apply Tame_bind; [apply Tame_get_deps | intros deps].
  apply Tame_bind; [by apply Tame_modify | intros _]. apply Tame_pure.
Qed.

Lemma Tame_record_dep dep acc : Tame (record_dep E dep acc).
Proof.
  unfold record_dep.
  apply Tame_bind; [apply Tame_get|]. intros s.
  apply Tame_bind.
  { destruct (_ !! dep.1) as [old|]; [|by apply Tame_modify].
    destruct (path_samefile E old dep.2) as [[]|].
    - apply Tame_pure.
    - apply Tame_bind; [by apply Tame_emit | intros _; apply Tame_exit].
    - apply Tame_raise. }
  intros _. apply Tame_bind; [apply Tame_get|]. intros s'.
  apply Tame_bind; [|intros _; apply Tame_pure].
  case_decide; [apply Tame_pure | by apply Tame_modify].
Qed.

Lemma Tame_for_deps l acc : Tame (for_deps E l acc).
Proof.
  revert acc. induction l as [|dep l IH]; intros acc; simpl.
  - apply Tame_pure.
  - apply Tame_bind; [apply Tame_record_dep | done].
Qed.

Lemma Tame_mark_and_list x : Tame (mark_and_list E x).
Proof.
  unfold mark_and_list.
  apply Tame_bind; [by apply Tame_modify | intros _].
  apply Tame_bind; [by apply Tame_emit | intros _].
  apply Tame_list_deps.
Qed.

Lemma Tame_visit x : Tame (visit E x).
Proof.
  unfold visit.
  apply Tame_bind; [apply Tame_mark_and_list | intros deps].
  apply Tame_bind; [apply Tame_for_deps | intros acc].
  by apply Tame_modify.
Qed.

Lemma Tame_iteration : Tame (iteration E).
Proof.
  unfold iteration. apply Tame_bind; [apply Tame_get | intros s].
  destruct (set_pop E (deps_remaining s)) as [[x remaining]|]; [|apply Tame_raise].
  apply Tame_bind; [by apply Tame_modify | intros _].
  case_decide; [apply Tame_pure | apply Tame_visit].
Qed.

Lemma Tame_while fuel : Tame (while_remaining E fuel).
Proof.
  induction fuel as [|fuel IH]; intros s; simpl;
    destruct (Nat.ltb 0 (size (deps_remaining s))); try done.
  apply (Tame_bind (iteration E) (fun _ => while_remaining E fuel));
    [apply Tame_iteration | done].
Qed.

Lemma Tame_prepare a : Tame (prepare E a).
Proof.
  unfold prepare.
  apply Tame_bind; [by apply Tame_emit | intros _].
  apply Tame_bind.
  { destruct (_ && _); [by apply Tame_emit | apply Tame_pure]. }
  intros _. apply Tame_bind; [by apply Tame_modify | intros _].
  apply Tame_bind; [by apply Tame_modify | intros _]. apply Tame_pure.
Qed.

Lemma NoExit_pure {A} (a : A) : NoExit (pure a).
Proof. by intros s c. Qed.

Lemma NoExit_bind {A B} (m : M A) (k : A -> M B) :
  NoExit m -> (forall a, NoExit (k a)) -> NoExit (bind m k).
Proof.
  intros Hm Hk s c. unfold bind. specialize (Hm s).
  destruct (m s) as [s1 [a|c'|e|]]; simpl in *; try done.
  - apply Hk.
  - by destruct (Hm c').
Qed.

Lemma NoExit_emit e : NoExit (emit e).
Proof. by intros s c. Qed.

Lemma NoExit_location_of x : NoExit (location_of x).
Proof.
  intros s c. unfold location_of, bind, get. simpl. by destruct (_ !! x).
Qed.

Lemma NoExit_copy_all dir l : NoExit (copy_all dir l).
Proof.
  induction l as [|x l IH]; simpl; [apply NoExit_pure|].
  apply NoExit_bind; [apply NoExit_location_of | intros src].
  apply NoExit_bind; [apply NoExit_emit | intros _].
  apply NoExit_bind; [apply NoExit_emit | intros _]. done.
Qed.

Lemma closure_loop_no_exit pop G fuel ret deps c :
  closure_loop pop G fuel ret deps <> Exit c.
Proof.
  revert ret deps. induction fuel as [|fuel IH]; intros ret deps; simpl;
    destruct (Nat.ltb 0 (length deps)); try done.
  destruct (pop deps) as [[dep rest]|]; [|done].
  case_decide; [apply IH|]. destruct (G !! dep); [apply IH | done].
Qed.

Lemma closure_no_exit pop root jd c : closure_with pop root jd <> Exit c.
Proof.
  unfold closure_with. destruct (_ !! root) as [l|]; [|done].
  pose proof (closure_loop_no_exit pop (jd_binary_deps jd)
                (closure_fuel (jd_binary_deps jd) l) ∅ l c) as Hne.
  destruct (closure_loop _ _ _ _ _); try done.
  intros [= ->]. by apply Hne.
Qed.

Lemma NoExit_stage a key : NoExit (stage E a key).
Proof.
  unfold stage. apply NoExit_bind; [by intros s c | intros s].
  apply NoExit_bind.
  { intros s' c. unfold call. simpl. apply closure_no_exit. }
  intros [res|]; [|by intros s' c].
  apply NoExit_bind; [apply NoExit_copy_all | intros _].
  apply NoExit_bind.
  { destruct (given _); [apply NoExit_emit | apply NoExit_pure]. }
  intros _. destruct (given _); [apply NoExit_emit | apply NoExit_pure].
Qed.

(** A run that exits does so with code 1 and before anything is staged or
    written. *)
Lemma run_exit fuel a c :
  (run E fuel a).2 = Exit c -> c = 1%Z /\ quiet (run E fuel a).1.
Proof.
  unfold run, main.
  assert (Hq0 : quiet (initial a)) by constructor.
  assert (Hstderr : forall msg,
    c = 1%Z /\ quiet ((emit (Stderr msg) >> sys_exit (A := unit) 1) (initial a)).1
    \/ ((emit (Stderr msg) >> sys_exit (A := unit) 1) (initial a)).2 <> Exit c).
  { intros msg. destruct (decide (c = 1%Z)) as [->|Hc].
    - left. split; [done|]. simpl. repeat constructor.
    - right. simpl. intros [= ?]. by apply Hc. }
  destruct (negb (path_exists E (target_binary a))).
  { intros H. by destruct (Hstderr (target_binary a +:+ " does not exist." +:+ eol)). }
  destruct (negb (path_isfile E (target_binary a))).
  { intros H. by destruct (Hstderr (target_binary a +:+ " is not a file." +:+ eol)). }
  destruct (negb (path_isdir E (output_directory a))).
  { simpl. by intros [= <-]. }
  unfold traverse_and_stage, bind.
  pose proof (Tame_prepare a (initial a)) as [Hq1 Hc1].
  destruct (prepare E a (initial a)) as [s1 [key|c1|e1|]]; simpl in *;
    [|intros [= <-]; split; [by apply Hc1 | by apply Hq1]|done..].
  pose proof (Tame_while fuel s1) as [Hq2 Hc2].
  destruct (while_remaining E fuel s1) as [s2 [[]|c2|e2|]]; simpl in *;
    [|intros [= <-]; split; [by apply Hc2 | by apply Hq2, Hq1]|done..].
  intros H. by destruct (NoExit_stage a key s2 c).
Qed.

End Discipline.

(** ** Conflicting resolutions *)

Section ConflictFacts.
Context (E : Env).

Lemma record_dep_conflict dep acc s :
  conflicting E s dep ->
  exists s', record_dep E dep acc s = (s', Exit 1).
Proof.
  intros (old & Hold & Hsame). unfold record_dep, bind, get. simpl.
  rewrite Hold, Hsame. simpl. by eexists.
Qed.

Lemma for_deps_app l1 l2 acc s :
  for_deps E (l1 ++ l2) acc s
  = bind (for_deps E l1 acc) (fun a => for_deps E l2 a) s.
Proof.
  revert acc s. induction l1 as [|dep l1 IH]; intros acc s; simpl; [done|].
  unfold bind. by destruct (record_dep E dep acc s) as [s1 [a|c|e|]].
Qed.

Lemma for_deps_conflict l k dep acc s s1 acc1 :
  l !! k = Some dep ->
  for_deps E (take k l) acc s = (s1, Ok acc1) ->
  conflicting E s1 dep ->
  exists s', for_deps E l acc s = (s', Exit 1).
Proof.
  intros Hk Hpre Hconf.
  rewrite <- (take_drop_middle l k dep Hk), for_deps_app.
  unfold bind. rewrite Hpre. simpl. unfold bind.
  destruct (record_dep_conflict dep acc1 s1 Hconf) as [s' ->]. by exists s'.
Qed.

Lemma set_pop_nonempty (p : gset string) x rest :
  set_pop E p = Some (x, rest) -> Nat.ltb 0 (size p) = true.
Proof.
  unfold set_pop. intros H. apply Nat.ltb_lt.
  destruct (decide (size p = 0)) as [Hz|]; [|lia].
  apply size_empty_iff in Hz. apply leibniz_equiv in Hz. subst p.
  by rewrite elements_empty in H.
Qed.

Lemma iteration_conflict s :
  meets_conflict E s -> exists s', iteration E s = (s', Exit 1).
Proof.
  intros (x & remaining & s2 & deps & k & dep & s1 & acc
          & Hpop & Hx & Hlist & Hk & Hpre & Hconf).
  unfold iteration, bind at 1, get. rewrite Hpop.
  unfold bind at 1, modify. rewrite decide_False by done.
  unfold visit, bind at 1. fold (set_remaining remaining s). rewrite Hlist.
  unfold bind at 1.
  destruct (for_deps_conflict _ k dep ∅ s2 s1 acc Hk Hpre Hconf) as [s' ->].
  by exists s'.
Qed.

Lemma while_from_head n s0 s fuel :
  loop_head E n s0 = Some s ->
  while_remaining E (n + fuel) s0 = while_remaining E fuel s.
Proof.
  revert s0. induction n as [|n IH]; intros s0; simpl.
  - by intros [= ->].
  - destruct (Nat.ltb 0 (size (deps_remaining s0))); [|done].
    unfold bind. destruct (iteration E s0) as [s1 [[]|c|e|]]; try done.
    apply IH.
Qed.

Lemma while_conflict n s0 s fuel :
  loop_head E n s0 = Some s -> meets_conflict E s -> n < fuel ->
  exists s', while_remaining E fuel s0 = (s', Exit 1).
Proof.
  intros Hhead Hconf Hfuel.
  replace fuel with (n + S (fuel - S n)) by lia.
  rewrite (while_from_head _ _ _ _ Hhead). simpl.
  destruct Hconf as (x & remaining & Hrest) eqn:Heq.
  destruct Hrest as (s2 & deps & k & dep & s1 & acc & Hpop & Hrest).
  rewrite (set_pop_nonempty _ _ _ Hpop). unfold bind.
  destruct (iteration_conflict s Hconf) as [s' ->]. by exists s'.
Qed.

Lemma prepare_ok a s : exists key, (prepare E a s).2 = Ok key.
Proof.
  unfold prepare, bind, emit, modify, pure. simpl.
  destruct (_ && _); simpl; by eexists.
Qed.

Lemma run_unfold fuel a :
  checks_pass E a ->
  exists key,
    run E fuel a
    = bind (while_remaining E fuel) (fun _ => stage E a key) (entry E a).
Proof.
  intros (Hex & Hfile & Hdir). unfold run, main. rewrite Hex, Hfile, Hdir. simpl.
  unfold traverse_and_stage, entry, bind at 1.
  destruct (prepare_ok a (initial a)) as [key Hkey].
  destruct (prepare E a (initial a)) as [s1 r1]. simpl in Hkey. subst r1.
  by exists key.
Qed.

End ConflictFacts.

(** C1: a run that exits does so with code 1 and before any file is copied
    to the output directory and before the JSON document or the manifest is
    written; and a run whose loop reaches a turn in which a dependency name
    already recorded resolves to a file that [samefile] tells apart from the
    recorded one exits, with code 1 and nothing staged or written. *)
Theorem conflict_aborts_before_output (E : Env) (a : cmd_line_args) :
  (forall fuel c,
     (run E fuel a).2 = Exit c -> c = 1%Z /\ quiet (run E fuel a).1)
  /\ (forall n s,
        checks_pass E a ->
        loop_head E n (entry E a) = Some s ->
        meets_conflict E s ->
        forall fuel, n < fuel ->
          (run E fuel a).2 = Exit 1 /\ quiet (run E fuel a).1).
Proof.
  split; [intros fuel c; apply run_exit|].
  intros n s Hchecks Hhead Hconf fuel Hfuel.
  assert (Hexit : (run E fuel a).2 = Exit 1).
  { destruct (run_unfold E fuel a Hchecks) as [key ->]. unfold bind.
    by destruct (while_conflict E n _ s fuel Hhead Hconf Hfuel) as [s' ->]. }
  split; [done|]. by apply (run_exit E fuel a 1).
Qed.

Lemma conflict_aborts_before_output_witness :
  checks_pass Linux.two_copies bare_args
  /\ loop_head Linux.two_copies 2 (entry Linux.two_copies bare_args)
     = Some two_copies_head
  /\ meets_conflict Linux.two_copies two_copies_head
  /\ (run Linux.two_copies 5 bare_args).2 = Exit 1
  /\ quiet (run Linux.two_copies 5 bare_args).1.
Proof.
  assert (Hc : checks_pass Linux.two_copies bare_args)
    by (repeat split).
  assert (Hh : loop_head Linux.two_copies 2 (entry Linux.two_copies bare_args)
               = Some two_copies_head) by (vm_compute; reflexivity).
  assert (Hm : meets_conflict Linux.two_copies two_copies_head).
  { exists "plug/libA.so", ∅,
      (mark_and_list Linux.two_copies "plug/libA.so"
         (set_remaining ∅ two_copies_head)).1,
      {[ ("libY.so", "/opt/app/plug/libY.so") ]}, 0,
      ("libY.so", "/opt/app/plug/libY.so"),
      (mark_and_list Linux.two_copies "plug/libA.so"
         (set_remaining ∅ two_copies_head)).1, ∅.
    split; [vm_compute; reflexivity|]. split; [compute_done|].
    split; [vm_compute; reflexivity|]. split; [vm_compute; reflexivity|].
    split; [reflexivity|].
    exists "/opt/app/libY.so". split; vm_compute; reflexivity. }
  split; [exact Hc|]. split; [exact Hh|]. split; [exact Hm|].
  exact (proj2 (conflict_aborts_before_output Linux.two_copies bare_args)
           2 two_copies_head Hc Hh Hm 5 ltac:(lia)).
Defined.

Example two_copies_run :
  (run Linux.two_copies 5 bare_args).2 = Exit 1
  /\ last (out (run Linux.two_copies 5 bare_args).1)
     = Some (Print (conflict_msg "libY.so" "/opt/app/libY.so"
                      "/opt/app/plug/libY.so")).
Proof. vm_compute. split; reflexivity. Qed.

(** ** The invariant of the graph builder *)

Section InvariantFacts.
Context (E : Env).

Lemma extends_refl s : extends ∅ s s.
Proof. repeat split; try done; set_solver. Qed.

Lemma extends_trans n1 n2 s1 s2 s3 :
  extends n1 s1 s2 -> extends n2 s2 s3 -> extends (n1 ∪ n2) s1 s3.
Proof.
  intros (Hd1 & Hb1 & Hv1 & Hl1 & Hn1 & Hr1) (Hd2 & Hb2 & Hv2 & Hl2 & Hn2 & Hr2).
  split; [congruence|]. split; [congruence|]. split; [congruence|].
  split; [by auto|]. split.
  - intros k [?|?]%elem_of_union; auto.
  - intros k. rewrite Hr2, Hr1, Hv1, elem_of_union. tauto.
Qed.

Lemma record_dep_ok dep acc s s' acc' :
  record_dep E dep acc s = (s', Ok acc') ->
  acc' = {[dep.1]} ∪ acc /\ extends {[dep.1]} s s'.
Proof.
  unfold record_dep, bind, get, modify, emit, pure, sys_exit, raise. simpl.
  destruct (binary_name_to_location_map s !! dep.1) as [old|] eqn:Hold; simpl.
  - destruct (path_samefile E old dep.2) as [[]|]; simpl; try done.
    case_decide as Hv; simpl; intros [= <- <-]; (split; [done|]);
      repeat split; simpl; try done; set_solver.
  - case_decide as Hv; simpl; intros [= <- <-]; (split; [done|]);
      (split; [done|]); (split; [done|]); (split; [done|]); simpl.
    + split; [|split].
      * intros k Hk. destruct (decide (k = dep.1)) as [->|Hne].
        -- rewrite lookup_insert_eq. by eexists.
        -- by rewrite lookup_insert_ne.
      * intros k ->%elem_of_singleton. rewrite lookup_insert_eq. by eexists.
      * set_solver.
    + split; [|split].
      * intros k Hk. destruct (decide (k = dep.1)) as [->|Hne].
        -- rewrite lookup_insert_eq. by eexists.
        -- by rewrite lookup_insert_ne.
      * intros k ->%elem_of_singleton. rewrite lookup_insert_eq. by eexists.
      * set_solver.
Qed.

Lemma for_deps_ok l acc s s' acc' :
  for_deps E l acc s = (s', Ok acc') ->
  acc' = list_to_set l.*1 ∪ acc /\ extends (list_to_set l.*1) s s'.
Proof.
  revert acc s. induction l as [|dep l IH]; intros acc s; simpl.
  - intros [= <- <-]. split; [set_solver | apply extends_refl].
  - unfold bind. destruct (record_dep E dep acc s) as [s1 [a|c|e|]] eqn:Hrec;
      try done.
    apply record_dep_ok in Hrec as [-> Hext1].
    intros [-> Hext2]%IH. split; [set_solver|].
    by eapply extends_trans.
Qed.

Lemma mark_and_list_ok x s s' deps :
  mark_and_list E x s = (s', Ok deps) ->
  search_directories s' = search_directories s
  /\ binary_deps s' = binary_deps s
  /\ deps_visited s' = {[x]} ∪ deps_visited s
  /\ binary_name_to_location_map s' = binary_name_to_location_map s
  /\ deps_remaining s' = deps_remaining s
  /\ is_Some (binary_name_to_location_map s !! x).
Proof.
  unfold mark_and_list, bind, modify, emit. simpl. rewrite list_deps_unfold. simpl.
  destruct (binary_name_to_location_map s !! x) as [loc|]; [|done].
  destruct (get_deps_for_binary E loc _) as [o [d|c|e|]]; simpl; try done.
  intros [= <- <-]. simpl. rewrite removelast_last. repeat split. by eexists.
Qed.

Lemma set_pop_Some (p : gset string) x rest :
  set_pop E p = Some (x, rest) -> x ∈ p /\ rest = p ∖ {[x]}.
Proof.
  unfold set_pop. destruct (elements p !! _) as [y|] eqn:Hy; [|done].
  intros [= <- <-]. split; [|done].
  apply elem_of_elements. by eapply list_elem_of_lookup_2.
Qed.

Lemma sorted_elem (acc : gset string) d : d ∈ sorted (elements acc) <-> d ∈ acc.
Proof.
  unfold sorted. rewrite merge_sort_Permutation. apply elem_of_elements.
Qed.

Lemma visit_inv x s s' :
  x ∈ deps_remaining s \/ is_Some (binary_name_to_location_map s !! x) ->
  x ∉ deps_visited s ->
  (forall k ds d, binary_deps s !! k = Some ds -> d ∈ ds ->
     is_Some (binary_deps s !! d) \/ d ∈ deps_remaining s \/ d = x) ->
  keys_located s ->
  (forall k, k ∈ deps_visited s <-> is_Some (binary_deps s !! k)) ->
  (forall k, k ∈ deps_remaining s -> is_Some (binary_name_to_location_map s !! k)) ->
  visit E x s = (s', Ok tt) ->
  graph_inv s'.
Proof.
  intros _ Hx Hedges Hloc Hvis Hpend. unfold visit, bind.
  destruct (mark_and_list E x s) as [s1 [deps|c|e|]] eqn:Hmark; try done.
  apply mark_and_list_ok in Hmark as (_ & Hb1 & Hv1 & Hl1 & Hr1 & Hxloc).
  destruct (for_deps E _ ∅ s1) as [s2 [acc|c|e|]] eqn:Hfor; try done.
  apply for_deps_ok in Hfor as [Hacc (_ & Hb2 & Hv2 & Hl2 & Hn2 & Hr2)].
  unfold modify. intros [= <-].
  set (names := list_to_set (set_iter_order E (elements deps)).*1 : gset string) in *.
  assert (Hacc' : forall d, d ∈ acc <-> d ∈ names) by set_solver.
  unfold graph_inv, edges_covered, keys_located. simpl.
  rewrite Hb2, Hb1. split; [|split; [|split]].
  - intros k ds d Hk Hd. rewrite Hr2, Hv1, Hr1.
    destruct (decide (d = x)) as [->|Hdx].
    { left. rewrite lookup_insert_eq. by eexists. }
    rewrite lookup_insert_ne by done.
    destruct (decide (k = x)) as [->|Hkx].
    + rewrite lookup_insert_eq in Hk. injection Hk as <-.
      apply sorted_elem, Hacc' in Hd.
      destruct (decide (d ∈ deps_visited s)) as [Hdv|Hdv].
      * left. by apply Hvis.
      * right. right. split; [done|]. set_solver.
    + rewrite lookup_insert_ne in Hk by done.
      destruct (Hedges _ _ _ Hk Hd) as [?|[?|?]]; [by left | right; by left | done].
  - intros k. destruct (decide (k = x)) as [->|Hkx].
    + intros _. apply Hl2. by rewrite Hl1.
    + rewrite lookup_insert_ne by done. intros Hk. apply Hl2. rewrite Hl1.
      by apply Hloc.
  - intros k. rewrite Hv2, Hv1. destruct (decide (k = x)) as [->|Hkx].
    + rewrite lookup_insert_eq. split; [by eexists | set_solver].
    + rewrite lookup_insert_ne by done. rewrite <- Hvis. set_solver.
  - intros k [Hk|[Hk _]]%Hr2.
    + apply Hl2. rewrite Hl1. apply Hpend. by rewrite <- Hr1.
    + by apply Hn2.
Qed.

Lemma iteration_inv s s' :
  graph_inv s -> iteration E s = (s', Ok tt) -> graph_inv s'.
Proof.
  intros (Hedges & Hloc & Hvis & Hpend). unfold iteration, bind at 1, get.
  destruct (set_pop E (deps_remaining s)) as [[x rest]|] eqn:Hpop; [|done].
  apply set_pop_Some in Hpop as [Hx ->].
  unfold bind, modify. case_decide as Hv.
  - intros [= <-]. unfold graph_inv, edges_covered, keys_located. simpl.
    split; [|split; [done|split; [done|]]].
    + intros k ds d Hk Hd. destruct (Hedges _ _ _ Hk Hd) as [?|Hd']; [by left|].
      destruct (decide (d = x)) as [->|Hne]; [left; by apply Hvis | right; set_solver].
    + intros k Hk. apply Hpend. set_solver.
  - apply visit_inv; simpl; try done.
    + right. by apply Hpend.
    + intros k ds d Hk Hd. destruct (Hedges _ _ _ Hk Hd) as [?|Hd']; [by left|].
      destruct (decide (d = x)) as [->|Hne]; [by right; right | right; left; set_solver].
    + intros k Hk. apply Hpend. set_solver.
Qed.

Lemma loop_head_inv n s0 s :
  graph_inv s0 -> loop_head E n s0 = Some s -> graph_inv s.
Proof.
  revert s0. induction n as [|n IH]; intros s0 Hinv; simpl.
  - by intros [= <-].
  - destruct (Nat.ltb 0 (size (deps_remaining s0))); [|done].
    destruct (iteration E s0) as [s1 [[]|c|e|]] eqn:Hit; try done.
    apply IH. by eapply iteration_inv.
Qed.

Lemma while_reaches_head fuel s0 s :
  while_remaining E fuel s0 = (s, Ok tt) ->
  exists n, loop_head E n s0 = Some s /\ deps_remaining s = ∅.
Proof.
  revert s0. induction fuel as [|fuel IH]; intros s0; simpl;
    destruct (Nat.ltb 0 (size (deps_remaining s0))) eqn:Hsize; try done.
  - intros [= <-]. exists 0. split; [done|].
    apply Nat.ltb_ge in Hsize. apply leibniz_equiv, size_empty_iff. lia.
  - unfold bind. destruct (iteration E s0) as [s1 [[]|c|e|]] eqn:Hit; try done.
    intros (n & Hn & Hempty)%IH. exists (S n). simpl. by rewrite Hsize, Hit.
  - intros [= <-]. exists 0. split; [done|].
    apply Nat.ltb_ge in Hsize. apply leibniz_equiv, size_empty_iff. lia.
Qed.

Lemma entry_fields a :
  binary_deps (entry E a) = ∅
  /\ deps_visited (entry E a) = ∅
  /\ deps_remaining (entry E a) = {[path_basename E (target_binary a)]} ∪ ∅
  /\ exists loc,
       binary_name_to_location_map (entry E a)
       = <[path_basename E (target_binary a) := loc]> ∅.
Proof.
  unfold entry, prepare, bind, emit, modify, pure, initial. simpl.
  destruct (_ && _); simpl; repeat split; by eexists.
Qed.

Lemma entry_inv a : graph_inv (entry E a).
Proof.
  destruct (entry_fields a) as (Hb & Hv & Hr & loc & Hl).
  unfold graph_inv, edges_covered, keys_located. rewrite Hb, Hv, Hr, Hl.
  split; [|split; [|split]].
  - intros k ds d Hk. by rewrite lookup_empty in Hk.
  - intros k [? Hk]. by rewrite lookup_empty in Hk.
  - intros k. rewrite lookup_empty. split; [set_solver | by intros [? ?]].
  - intros k Hk. assert (k = path_basename E (target_binary a)) as -> by set_solver.
    rewrite lookup_insert_eq. by eexists.
Qed.

Lemma loop_end_inv a fuel s :
  while_remaining E fuel (entry E a) = (s, Ok tt) ->
  deps_remaining s = ∅ /\ edges_covered s /\ keys_located s
  /\ closed (binary_deps s).
Proof.
  intros (n & Hn & Hempty)%while_reaches_head.
  destruct (loop_head_inv n _ s (entry_inv a) Hn) as (Hedges & Hloc & _).
  split; [done|]. split; [done|]. split; [done|].
  intros k ds d Hk Hd. destruct (Hedges _ _ _ Hk Hd) as [?|Hin]; [done|].
  rewrite Hempty in Hin. set_solver.
Qed.

End InvariantFacts.

(** C7: at every loop test the run reaches, every key in an edge list is a
    key of the dependency map or is pending, and every key of the
    dependency map has a location; when the loop ends, nothing is pending
    and the dependency map is closed under its edge lists. *)
Theorem graph_invariant (E : Env) (a : cmd_line_args) :
  (forall n s,
     loop_head E n (entry E a) = Some s -> edges_covered s /\ keys_located s)
  /\ (forall fuel s,
        while_remaining E fuel (entry E a) = (s, Ok tt) ->
        deps_remaining s = ∅ /\ edges_covered s /\ keys_located s
        /\ closed (binary_deps s)).
Proof.
  split.
  - intros n s Hn.
    destruct (loop_head_inv E n _ s (entry_inv E a) Hn) as (? & ? & _). done.
  - intros fuel s. apply loop_end_inv.
Qed.

Lemma graph_invariant_witness :
  loop_head Linux.scenario 2 (entry Linux.scenario scenario_args)
  = Some scenario_head
  /\ while_remaining Linux.scenario 10 (entry Linux.scenario scenario_args)
     = (scenario_end, Ok tt)
  /\ (edges_covered scenario_head /\ keys_located scenario_head)
  /\ deps_remaining scenario_end = ∅ /\ edges_covered scenario_end
  /\ keys_located scenario_end /\ closed (binary_deps scenario_end).
Proof.
  assert (Hh : loop_head Linux.scenario 2 (entry Linux.scenario scenario_args)
               = Some scenario_head) by (vm_compute; reflexivity).
  assert (He : while_remaining Linux.scenario 10
                 (entry Linux.scenario scenario_args)
               = (scenario_end, Ok tt)) by (vm_compute; reflexivity).
  split; [exact Hh|]. split; [exact He|]. split.
  - exact (proj1 (graph_invariant Linux.scenario scenario_args) 2 scenario_head Hh).
  - exact (proj2 (graph_invariant Linux.scenario scenario_args) 10 scenario_end He).
Defined.

Example scenario_graph :
  map_to_list (binary_deps scenario_end)
  ≡ₚ [ ("app", ["libA.so"; "libB.so"]); ("libA.so", ["libC.so"]);
       ("libB.so", []); ("libC.so", []) ]
  /\ get_all_deps_for_binary "app"
       (JsonDict (binary_deps scenario_end)
                 (binary_name_to_location_map scenario_end))
     = Ok (Some ({["libA.so"]} ∪ {["libB.so"]} ∪ {["libC.so"]})).
Proof.
  split; [|vm_compute; reflexivity].
  apply (bool_decide_unpack _). vm_compute. exact I.
Qed.

Lemma closure_excludes_root_witness :
  is_Some (jd_binary_deps chain_dict !! "app")
  /\ ~ reach (jd_binary_deps chain_dict) "app" "app"
  /\ (forall res,
        get_all_deps_for_binary "app" chain_dict = Ok (Some res) -> "app" ∉ res)
  /\ (closed (jd_binary_deps chain_dict) ->
      exists res, get_all_deps_for_binary "app" chain_dict = Ok (Some res)).
Proof.
  assert (Hr : is_Some (jd_binary_deps chain_dict !! "app")) by (by eexists).
  assert (Hn : ~ reach (jd_binary_deps chain_dict) "app" "app").
  { apply (acyclic_check _ chain_rank). apply map_Forall_to_list. vm_compute.
    repeat constructor. }
  split; [exact Hr|]. split; [exact Hn|].
  exact (closure_excludes_root chain_dict "app" Hr Hn).
Defined.

(** ** The closure on the graph the builder leaves *)

Section BuiltGraph.
Context (E : Env).

Lemma visit_shape x s s' :
  visit E x s = (s', Ok tt) ->
  (exists ds, binary_deps s' = <[x := ds]> (binary_deps s))
  /\ (forall k, k ∈ deps_remaining s -> k ∈ deps_remaining s').
Proof.
  unfold visit, bind.
  destruct (mark_and_list E x s) as [s1 [deps|c|e|]] eqn:Hmark; try done.
  apply mark_and_list_ok in Hmark as (_ & Hb1 & _ & _ & Hr1 & _).
  destruct (for_deps E _ ∅ s1) as [s2 [acc|c|e|]] eqn:Hfor; try done.
  apply for_deps_ok in Hfor as [_ (_ & Hb2 & _ & _ & _ & Hr2)].
  unfold modify. intros [= <-]. simpl. rewrite Hb2, Hb1. split; [by eexists|].
  intros k Hk. apply Hr2. left. by rewrite Hr1.
Qed.

Lemma iteration_keeps k s s' :
  graph_inv s -> iteration E s = (s', Ok tt) ->
  k ∈ deps_remaining s \/ is_Some (binary_deps s !! k) ->
  k ∈ deps_remaining s' \/ is_Some (binary_deps s' !! k).
Proof.
  intros (_ & _ & Hvis & _). unfold iteration, bind at 1, get.
  destruct (set_pop E (deps_remaining s)) as [[x rest]|] eqn:Hpop; [|done].
  apply set_pop_Some in Hpop as [Hx ->].
  unfold bind, modify. case_decide as Hv.
  - intros [= <-]. simpl. intros [Hk|Hk]; [|by right].
    destruct (decide (k = x)) as [->|Hne]; [right; by apply Hvis | left; set_solver].
  - intros [[ds Hds] Hrem]%visit_shape Hk. simpl in Hrem. rewrite Hds.
    destruct (decide (k = x)) as [->|Hne].
    + right. rewrite lookup_insert_eq. by eexists.
    + rewrite lookup_insert_ne by done. destruct Hk as [Hk|Hk]; [|by right].
      left. apply Hrem. set_solver.
Qed.

Lemma loop_head_keeps k n s0 s :
  graph_inv s0 -> loop_head E n s0 = Some s ->
  k ∈ deps_remaining s0 \/ is_Some (binary_deps s0 !! k) ->
  k ∈ deps_remaining s \/ is_Some (binary_deps s !! k).
Proof.
  revert s0. induction n as [|n IH]; intros s0 Hinv; simpl.
  - by intros [= <-].
  - destruct (Nat.ltb 0 (size (deps_remaining s0))); [|done].
    destruct (iteration E s0) as [s1 [[]|c|e|]] eqn:Hit; try done.
    intros Hn Hk. apply (IH s1); [by eapply iteration_inv | done|].
    by eapply iteration_keeps.
Qed.

(** When the loop ends the root has an edge list. *)
Lemma root_processed a fuel s :
  while_remaining E fuel (entry E a) = (s, Ok tt) ->
  is_Some (binary_deps s !! path_basename E (target_binary a)).
Proof.
  intros (n & Hn & Hempty)%while_reaches_head.
  destruct (loop_head_keeps (path_basename E (target_binary a)) n _ s
              (entry_inv E a) Hn) as [Hin|?]; [|set_solver|done].
  left. destruct (entry_fields E a) as (_ & _ & -> & _). set_solver.
Qed.

End BuiltGraph.





(** * Further properties

    ** The listing grammar *)

Section GrammarFacts.
Import Text Grammar.

Lemma prefix_empty s : String.prefix "" s = true.
Proof. by destruct s. Qed.

Lemma contains_char_cons c a s :
  contains (String c "") (String a s)
  = (if ascii_dec c a then true else contains (String c "") s).
Proof.
  simpl. destruct (ascii_dec c a); [by rewrite prefix_empty | done].
Qed.

Lemma append_cons a s t : String a s +:+ t = String a (s +:+ t).
Proof. reflexivity. Qed.

Lemma append_empty t : "" +:+ t = t.
Proof. reflexivity. Qed.

Lemma prefix_split p s :
  String.prefix p s = true -> s = p +:+ drop (String.length p) s.
Proof.
  revert s. induction p as [|a p IH]; intros [|b s]; simpl; try done.
  destruct (ascii_dec a b) as [->|]; [|done]. intros H.
  rewrite append_cons. f_equal. by apply IH.
Qed.

(** What group 2 takes: a non-empty text free of opening parentheses, with
    a rest fit to end the pattern. *)
Lemma group2_sound s g :
  group2 s = Some g ->
  exists rest, s = g +:+ rest /\ g <> "" /\ contains "(" g = false
               /\ tail_ok rest = true.
Proof.
  revert g. induction s as [|c s IH]; intros g; simpl; [done|].
  destruct (Ascii.eqb_spec c "(") as [->|Hc]; [done|].
  destruct (group2 s) as [g'|] eqn:Hg.
  - intros [= <-]. destruct (IH g' eq_refl) as (rest & -> & Hne & Hno & Htail).
    exists rest. split; [done|]. split; [done|]. split; [|done].
    rewrite contains_char_cons. destruct (ascii_dec "(" c) as [<-|]; done.
  - destruct (tail_ok s) eqn:Htail; [|done]. intros [= <-].
    exists s. split; [done|]. split; [done|]. split; [|done].
    rewrite contains_char_cons. destruct (ascii_dec "(" c) as [<-|]; done.
Qed.

(** Group 2 stops where the rest neither lets it go on nor fails to end the
    pattern. *)
Lemma group2_complete g rest :
  g <> "" -> contains "(" g = false ->
  group2 rest = None -> tail_ok rest = true ->
  group2 (g +:+ rest) = Some g.
Proof.
  intros Hne Hno Hrest Htail. induction g as [|c g IH]; [done|].
  rewrite contains_char_cons in Hno.
  destruct (ascii_dec "(" c) as [|Hc]; [done|].
  rewrite append_cons. simpl.
  destruct (Ascii.eqb_spec c "(") as [->|_]; [done|].
  destruct g as [|c' g].
  - by rewrite append_empty, Hrest, Htail.
  - by rewrite IH.
Qed.

Lemma dot_star_end_plain s :
  contains (String newline "") s = false -> dot_star_end s = true.
Proof.
  induction s as [|c s IH]; [done|]. rewrite contains_char_cons.
  destruct (ascii_dec newline c) as [|Hc]; [done|]. intros Hs.
  change (dot_star_end (String c s))
    with (if Ascii.eqb c newline then at_end (String c s) else dot_star_end s).
  destruct (Ascii.eqb_spec c newline) as [->|_]; [done | by apply IH].
Qed.

Lemma ldd_match_cons c s :
  ldd_match (String c s)
  = if Ascii.eqb c " " then None
    else match ldd_match s with
         | Some (g1, g2) => Some (String c g1, g2)
         | None =>
             if startswith s " => "
             then match group2 (drop 4 s) with
                  | Some g2 => Some (String c EmptyString, g2)
                  | None => None
                  end
             else None
         end.
Proof. reflexivity. Qed.

End GrammarFacts.

(** X1: when the pattern matches, the line begins with the name, the
    arrow and the location, in that order; the name is not empty and has no
    space, the location is not empty and has no opening parenthesis, and
    what follows the location is nothing or starts with a space. *)
Theorem ldd_match_sound (line dep_name ldd_dep_location : string) :
  Grammar.ldd_match line = Some (dep_name, ldd_dep_location) ->
  exists rest,
    line = dep_name +:+ " => " +:+ ldd_dep_location +:+ rest
    /\ dep_name <> "" /\ Text.contains " " dep_name = false
    /\ ldd_dep_location <> "" /\ Text.contains "(" ldd_dep_location = false
    /\ Grammar.tail_ok rest = true.
Proof.
  revert dep_name. induction line as [|c s IH]; intros n; [done|].
  rewrite ldd_match_cons.
  destruct (Ascii.eqb_spec c " ") as [->|Hc]; [done|].
  assert (Hcons : forall m, Text.contains " " m = false ->
            Text.contains " " (String c m) = false).
  { intros m Hm. rewrite contains_char_cons.
    destruct (ascii_dec " " c) as [<-|]; done. }
  destruct (Grammar.ldd_match s) as [[g1 g2]|] eqn:Hm.
  - intros [= <- <-].
    destruct (IH g1 eq_refl) as (rest & -> & Hne & Hno & Hrest).
    exists rest. split; [done|]. split; [done|]. split; [by apply Hcons | done].
  - destruct (Text.startswith s " => ") eqn:Hpre; [|done].
    destruct (Grammar.group2 (Text.drop 4 s)) as [g2|] eqn:Hg; [|done].
    intros [= <- <-].
    apply group2_sound in Hg as (rest & Hs & Hne & Hno & Htail).
    exists rest. split.
    + rewrite append_cons, append_empty. f_equal.
      rewrite (prefix_split " => " s Hpre). f_equal. exact Hs.
    + split; [done|]. split; [by apply Hcons | done].
Qed.

Lemma ldd_match_sound_witness :
  Grammar.ldd_match "libz.so.1 => /lib/libz.so.1 (0x00007f)"
  = Some ("libz.so.1", "/lib/libz.so.1")
  /\ exists rest,
       "libz.so.1 => /lib/libz.so.1 (0x00007f)"
       = "libz.so.1" +:+ " => " +:+ "/lib/libz.so.1" +:+ rest
       /\ "libz.so.1" <> "" /\ Text.contains " " "libz.so.1" = false
       /\ "/lib/libz.so.1" <> "" /\ Text.contains "(" "/lib/libz.so.1" = false
       /\ Grammar.tail_ok rest = true.
Proof.
  split; [reflexivity|].
  exact (ldd_match_sound "libz.so.1 => /lib/libz.so.1 (0x00007f)"
           "libz.so.1" "/lib/libz.so.1" eq_refl).
Defined.

(** X2: the two shapes [ldd] prints are read back.  For a name that is not
    empty and has no space, and a location that is not empty and has no
    opening parenthesis, the line made of name, arrow and location matches
    with that name and location; so does that line followed by a space and
    a parenthesised address free of newlines. *)
Theorem ldd_match_reads_entries (dep_name ldd_dep_location addr : string) :
  dep_name <> "" -> Text.contains " " dep_name = false ->
  ldd_dep_location <> "" -> Text.contains "(" ldd_dep_location = false ->
  Grammar.ldd_match (dep_name +:+ " => " +:+ ldd_dep_location)
  = Some (dep_name, ldd_dep_location)
  /\ (Text.contains (String Text.newline "") addr = false ->
      Grammar.ldd_match
        (dep_name +:+ " => " +:+ ldd_dep_location +:+ " (" +:+ addr +:+ ")")
      = Some (dep_name, ldd_dep_location)).
Proof.
  intros Hn Hsp Hl Hpar.
  assert (Hwrap : forall tail,
    Grammar.group2 (ldd_dep_location +:+ tail) = Some ldd_dep_location ->
    Grammar.ldd_match (dep_name +:+ " => " +:+ ldd_dep_location +:+ tail)
    = Some (dep_name, ldd_dep_location)).
  { intros tail Hg. clear Hl Hpar.
    induction dep_name as [|c n IH]; [done|].
    rewrite contains_char_cons in Hsp.
    destruct (ascii_dec " " c) as [|Hc]; [done|].
    rewrite append_cons, ldd_match_cons.
    destruct (Ascii.eqb_spec c " ") as [->|_]; [done|].
    destruct n as [|c' n].
    - rewrite append_empty, !append_cons, append_empty.
      unfold Text.startswith. simpl. rewrite prefix_empty. by rewrite Hg.
    - by rewrite IH. }
  assert (Hright : forall t : string, t +:+ "" = t).
  { intros t. induction t as [|x t IHt]; [done|]. by rewrite append_cons, IHt. }
  split.
  - rewrite <- (Hright ldd_dep_location) at 1. apply Hwrap.
    by apply group2_complete.
  - intros Haddr. apply Hwrap. apply group2_complete; try done.
    + rewrite !append_cons, append_empty. by destruct addr.
    + rewrite !append_cons, append_empty.
      change (Grammar.tail_ok (String " " (String "(" (addr +:+ ")"))))
        with (Grammar.dot_star_end (String "(" (addr +:+ ")"))
              || Grammar.at_end (String " " (String "(" (addr +:+ ")")))).
      apply orb_true_iff. left. apply dot_star_end_plain.
      rewrite contains_char_cons.
      destruct (ascii_dec Text.newline "("); [done|].
      clear -Haddr. induction addr as [|a addr IH]; [done|].
      rewrite append_cons, contains_char_cons.
      rewrite contains_char_cons in Haddr.
      destruct (ascii_dec Text.newline a); [done|]. by apply IH.
Qed.

Lemma ldd_match_reads_entries_witness :
  "libq.so" <> "" /\ Text.contains " " "libq.so" = false
  /\ "not found" <> "" /\ Text.contains "(" "not found" = false
  /\ Grammar.ldd_match ("libq.so" +:+ " => " +:+ "not found")
     = Some ("libq.so", "not found").
Proof.
  assert (H1 : "libq.so" <> "") by done.
  assert (H2 : "not found" <> "") by done.
  split; [exact H1|]. split; [reflexivity|]. split; [exact H2|].
  split; [reflexivity|].
  exact (proj1 (ldd_match_reads_entries "libq.so" "not found" "" H1 eq_refl
                  H2 eq_refl)).
Defined.

(** ** The search over the directories *)

Section SearchFacts.
Context (E : Env).

Lemma search_app_Some dirs more n p :
  search E dirs n = Some p -> search E (dirs ++ more) n = Some p.
Proof.
  induction dirs as [|d dirs IH]; simpl; [done|].
  destruct (path_exists E (path_join E d n)); [|done].
  by destruct (path_isfile E (path_join E d n)).
Qed.

Lemma search_app_None dirs more n :
  search E dirs n = None -> search E (dirs ++ more) n = search E more n.
Proof.
  induction dirs as [|d dirs IH]; simpl; [done|].
  destruct (path_exists E (path_join E d n)); [|done].
  by destruct (path_isfile E (path_join E d n)).
Qed.

End SearchFacts.

(** X3: the search returns the candidate path of the first directory, in
    list order, in which that path exists and is a regular file: no earlier
    directory has one; and it returns nothing exactly when no directory has
    one.  A path that exists but is not a regular file is passed over. *)
Theorem search_first_match (E : Env) (dirs : list string) (dep_name : string) :
  match search E dirs dep_name with
  | Some p =>
      exists pre d post,
        dirs = pre ++ d :: post
        /\ p = path_join E d dep_name
        /\ path_exists E p = true /\ path_isfile E p = true
        /\ forall d', d' ∈ pre ->
             path_exists E (path_join E d' dep_name)
             && path_isfile E (path_join E d' dep_name) = false
  | None =>
      forall d, d ∈ dirs ->
        path_exists E (path_join E d dep_name)
        && path_isfile E (path_join E d dep_name) = false
  end.
Proof.
  induction dirs as [|d dirs IH]; simpl.
  - intros d Hd. by apply elem_of_nil in Hd.
  - destruct (path_exists E (path_join E d dep_name)) eqn:Hex;
      [destruct (path_isfile E (path_join E d dep_name)) eqn:Hfile|].
    + exists [], d, dirs. repeat split; try done.
      intros d' Hd'. by apply elem_of_nil in Hd'.
    + destruct (search E dirs dep_name) as [p|].
      * destruct IH as (pre & d0 & post & -> & Hp & He & Hf & Hpre).
        exists (d :: pre), d0, post. repeat split; try done.
        intros d' [->|Hd']%elem_of_cons; [by rewrite Hex, Hfile | by apply Hpre].
      * intros d' [->|Hd']%elem_of_cons; [by rewrite Hex, Hfile | by apply IH].
    + destruct (search E dirs dep_name) as [p|].
      * destruct IH as (pre & d0 & post & -> & Hp & He & Hf & Hpre).
        exists (d :: pre), d0, post. repeat split; try done.
        intros d' [->|Hd']%elem_of_cons; [by rewrite Hex | by apply Hpre].
      * intros d' [->|Hd']%elem_of_cons; [by rewrite Hex | by apply IH].
Qed.

(** X4: the directories given on the command line take precedence over the
    directory of the binary being listed, which [main] appends last: a name
    found in the given directories resolves to the same path whatever
    directory is appended, so it resolves alike for every binary; a name
    not found in them is looked up in the appended directories alone. *)
Theorem search_given_directories_first (E : Env) (dirs : list string)
    (dep_name : string) :
  (forall p, search E dirs dep_name = Some p ->
     forall more, search E (dirs ++ more) dep_name = Some p)
  /\ (search E dirs dep_name = None ->
      forall more, search E (dirs ++ more) dep_name = search E more dep_name)
  /\ (is_Some (search E dirs dep_name) ->
      forall own1 own2,
        search E (dirs ++ [own1]) dep_name = search E (dirs ++ [own2]) dep_name).
Proof.
  split; [|split].
  - intros p Hp more. by apply search_app_Some.
  - intros Hnone more. by apply search_app_None.
  - intros [p Hp] own1 own2. by rewrite !(search_app_Some E dirs _ _ p Hp).
Qed.

Lemma search_given_directories_first_witness :
  search Linux.scenario ["/opt/lib"] "libA.so" = Some "/opt/lib/libA.so"
  /\ search Linux.scenario ["/opt/lib"] "app" = None
  /\ search Linux.scenario (["/opt/lib"] ++ ["/opt/app"]) "libA.so"
     = Some "/opt/lib/libA.so"
  /\ search Linux.scenario (["/opt/lib"] ++ ["/opt/app"]) "app"
     = search Linux.scenario ["/opt/app"] "app"
  /\ search Linux.scenario (["/opt/lib"] ++ ["/opt/app"]) "libA.so"
     = search Linux.scenario (["/opt/lib"] ++ ["/elsewhere"]) "libA.so".
Proof.
  assert (H1 : search Linux.scenario ["/opt/lib"] "libA.so"
               = Some "/opt/lib/libA.so") by reflexivity.
  assert (H2 : search Linux.scenario ["/opt/lib"] "app" = None) by reflexivity.
  pose proof (search_given_directories_first Linux.scenario ["/opt/lib"] "libA.so")
    as (Ha & _ & Hc).
  pose proof (search_given_directories_first Linux.scenario ["/opt/lib"] "app")
    as (_ & Hb & _).
  split; [exact H1|]. split; [exact H2|]. split; [exact (Ha _ H1 ["/opt/app"])|].
  split; [exact (Hb H2 ["/opt/app"])|].
  exact (Hc (ex_intro _ _ H1) "/opt/app" "/elsewhere").
Defined.

(** ** What the lister returns *)

Section ListerContents.
Import Text.
Context (E : Env).

Lemma process_line_contents binary_path my_name dirs ret raw o ret' :
  process_line E binary_path my_name dirs ret raw = (o, Ok ret') ->
  forall n loc,
    (n, loc) ∈ ret' <->
    (n, loc) ∈ ret \/ resolved_entry E my_name dirs raw n loc.
Proof.
  unfold process_line, resolved_entry.
  destruct (Grammar.ldd_match (strip raw)) as [[n0 l0]|] eqn:Hm.
  - destruct (skipped E my_name n0 l0) eqn:Hskip.
    + intros Heq n loc. simplify_eq. split; [by left|].
      intros [?|(l & p & Hl & Hs & _)]; [done|]. simplify_eq. congruence.
    + destruct (found (search E dirs n0)) as [p0|] eqn:Hf.
      * destruct (fix_location E p0) as [loc0| | |] eqn:Hfix; try done.
        intros Heq n loc. simplify_eq.
        rewrite elem_of_union, elem_of_singleton. split.
        -- intros [Hnl|?]; [right | by left]. simplify_eq. by exists l0, p0.
        -- intros [?|(l & p & Hl & _ & Hp & Hfix')]; [by right|].
           left. simplify_eq. congruence.
      * by destruct (String.eqb l0 "not found").
  - destruct (benign (strip raw)); [|done].
    intros Heq n loc. simplify_eq. split; [by left|].
    intros [?|(l & p & ? & _)]; [done | congruence].
Qed.

Lemma read_loop_contents binary_path my_name dirs lines ret o ret' :
  (forall l, l ∈ lines -> truthy l = true) ->
  read_loop E binary_path my_name dirs lines ret = (o, Ok ret') ->
  forall n loc,
    (n, loc) ∈ ret' <->
    (n, loc) ∈ ret
    \/ exists raw, raw ∈ lines /\ resolved_entry E my_name dirs raw n loc.
Proof.
  revert ret o. induction lines as [|l lines IH]; intros ret o Ht; simpl.
  - intros [= _ <-] n loc. split; [by left|].
    intros [?|(raw & Hraw & _)]; [done | by apply elem_of_nil in Hraw].
  - rewrite (Ht l) by apply list_elem_of_here. simpl.
    destruct (process_line E binary_path my_name dirs ret l) as [o1 [ret1| | |]]
      eqn:Hp; try done.
    destruct (read_loop E binary_path my_name dirs lines ret1) as [o2 r2] eqn:Hl.
    intros [= _ ->] n loc.
    rewrite (IH ret1 o2 (fun l' H => Ht l' (list_elem_of_further _ _ _ H)) Hl).
    rewrite (process_line_contents _ _ _ _ _ _ _ Hp). split.
    + intros [[?|?]|(raw & Hraw & ?)]; [by left| |].
      * right. exists l. split; [apply list_elem_of_here | done].
      * right. exists raw. split; [by apply list_elem_of_further | done].
    + intros [?|(raw & [->|Hraw]%elem_of_cons & ?)];
        [by left; left | by left; right |]. right. by exists raw.
Qed.

Lemma process_line_abort binary_path my_name dirs ret raw o c :
  process_line E binary_path my_name dirs ret raw = (o, Exit c) ->
  c = 1%Z /\ exists msg, o = [Print msg]
                         /\ aborting_line E binary_path my_name dirs raw msg.
Proof.
  unfold process_line, aborting_line.
  destruct (Grammar.ldd_match (strip raw)) as [[n0 l0]|] eqn:Hm.
  - destruct (skipped E my_name n0 l0) eqn:Hskip; [done|].
    destruct (found (search E dirs n0)) as [p0|] eqn:Hf.
    + apply found_Some in Hf as [_ Htr].
      by destruct (fix_location_ok E p0 Htr) as [p' ->].
    + intros H.
      destruct (String.eqb l0 "not found") eqn:Hnf; simplify_eq;
        (split; [done|]); eexists; (split; [done|]); right; exists n0, l0;
        rewrite Hnf; done.
  - destruct (benign (strip raw)) eqn:Hb; [done|]. intros H. simplify_eq.
    split; [done|]. eexists. split; [done|]. by left.
Qed.

Lemma read_loop_abort_line binary_path my_name dirs lines ret o c :
  read_loop E binary_path my_name dirs lines ret = (o, Exit c) ->
  c = 1%Z
  /\ exists raw msg, raw ∈ lines /\ o = [Print msg]
                     /\ aborting_line E binary_path my_name dirs raw msg.
Proof.
  revert ret o. induction lines as [|l lines IH]; intros ret o; simpl; [done|].
  destruct (truthy l); simpl; [|done].
  destruct (process_line_cases E binary_path my_name dirs ret l)
    as [[ret1 Hok]|[msg Hexit]].
  - rewrite Hok.
    destruct (read_loop E binary_path my_name dirs lines ret1) as [o2 r2] eqn:Hl.
    intros H. simplify_eq.
    destruct (IH _ _ Hl) as (-> & raw & msg & Hraw & -> & Hab).
    split; [done|]. exists raw, msg. split; [by right | done].
  - destruct (process_line_abort _ _ _ _ _ _ _ Hexit) as (_ & msg' & Hmsg & Hab).
    rewrite Hexit. intros H. simplify_eq. split; [done|].
    exists l, msg'. split; [apply list_elem_of_here | done].
Qed.

End ListerContents.

(** X5: when the lister returns, it has printed nothing, and a pair of name
    and location is in the returned set exactly when some line of the
    listing is an entry of that name that passes the filter and whose name
    the search resolves to that location. *)
Theorem lister_contents (E : Env) (binary_path : string) (dirs : list string)
    (o : list event) (ret : gset (string * string)) :
  get_deps_for_binary E binary_path dirs = (o, Ok ret) ->
  o = []
  /\ forall dep_name loc,
       (dep_name, loc) ∈ ret <->
       exists raw,
         raw ∈ Text.read_lines (ldd_stdout E binary_path)
         /\ resolved_entry E (path_basename E binary_path) dirs raw dep_name loc.
Proof.
  intros Hret. split.
  - destruct (get_deps_cases E binary_path dirs) as [[r H]|[msg H]];
      rewrite H in Hret; by simplify_eq.
  - intros n loc. unfold get_deps_for_binary in Hret.
    rewrite (read_loop_contents E _ _ _ _ _ _ _
               (fun l => read_lines_truthy (ldd_stdout E binary_path) l) Hret).
    split; [intros [?|?]; [set_solver | done] | by right].
Qed.

Lemma lister_contents_witness :
  get_deps_for_binary Linux.scenario "/opt/app/app" ["/opt/lib"; "/opt/app"]
  = ([], Ok ({[ ("libA.so", "/opt/lib/libA.so") ]}
             ∪ {[ ("libB.so", "/opt/lib/libB.so") ]}))
  /\ forall dep_name loc,
       (dep_name, loc) ∈ ({[ ("libA.so", "/opt/lib/libA.so") ]}
                          ∪ {[ ("libB.so", "/opt/lib/libB.so") ]}
                          : gset (string * string)) <->
       exists raw,
         raw ∈ Text.read_lines (ldd_stdout Linux.scenario "/opt/app/app")
         /\ resolved_entry Linux.scenario
              (path_basename Linux.scenario "/opt/app/app")
              ["/opt/lib"; "/opt/app"] raw dep_name loc.
Proof.
  assert (H : get_deps_for_binary Linux.scenario "/opt/app/app"
                ["/opt/lib"; "/opt/app"]
              = ([], Ok ({[ ("libA.so", "/opt/lib/libA.so") ]}
                         ∪ {[ ("libB.so", "/opt/lib/libB.so") ]})))
    by (vm_compute; reflexivity).
  split; [exact H|].
  exact (proj2 (lister_contents Linux.scenario "/opt/app/app"
                  ["/opt/lib"; "/opt/app"] _ _ H)).
Defined.

(** X6: the set the lister returns gives every name one location only. *)
Theorem lister_one_location_per_name (E : Env) (binary_path : string)
    (dirs : list string) (o : list event) (ret : gset (string * string))
    (dep_name loc1 loc2 : string) :
  get_deps_for_binary E binary_path dirs = (o, Ok ret) ->
  (dep_name, loc1) ∈ ret -> (dep_name, loc2) ∈ ret -> loc1 = loc2.
Proof.
  intros Hret. unfold get_deps_for_binary in Hret.
  pose proof (read_loop_contents E _ _ _ _ _ _ _
                (fun l => read_lines_truthy (ldd_stdout E binary_path) l) Hret)
    as Hc.
  intros [?|(raw1 & _ & l1 & p1 & _ & _ & Hf1 & Hx1)]%Hc; [set_solver|].
  intros [?|(raw2 & _ & l2 & p2 & _ & _ & Hf2 & Hx2)]%Hc; [set_solver|].
  congruence.
Qed.

Lemma lister_one_location_per_name_witness :
  get_deps_for_binary Linux.scenario "/opt/app/app" ["/opt/lib"; "/opt/app"]
  = ([], Ok ({[ ("libA.so", "/opt/lib/libA.so") ]}
             ∪ {[ ("libB.so", "/opt/lib/libB.so") ]}))
  /\ forall loc,
       ("libA.so", loc) ∈ ({[ ("libA.so", "/opt/lib/libA.so") ]}
                           ∪ {[ ("libB.so", "/opt/lib/libB.so") ]}
                           : gset (string * string)) ->
       "/opt/lib/libA.so" = loc.
Proof.
  assert (H : get_deps_for_binary Linux.scenario "/opt/app/app"
                ["/opt/lib"; "/opt/app"]
              = ([], Ok ({[ ("libA.so", "/opt/lib/libA.so") ]}
                         ∪ {[ ("libB.so", "/opt/lib/libB.so") ]})))
    by (vm_compute; reflexivity).
  split; [exact H|]. intros loc Hloc.
  refine (lister_one_location_per_name Linux.scenario "/opt/app/app"
            ["/opt/lib"; "/opt/app"] _ _ "libA.so" _ loc H _ Hloc).
  apply elem_of_union. left. by apply elem_of_singleton.
Defined.

(** X7: when the lister exits, the exit code is 1 and it has printed
    exactly one message, the one for a line of the listing that is either
    unrecognized or an unfiltered entry the search cannot resolve. *)
Theorem lister_exit_names_line (E : Env) (binary_path : string)
    (dirs : list string) (o : list event) (c : Z) :
  get_deps_for_binary E binary_path dirs = (o, Exit c) ->
  c = 1%Z
  /\ exists raw msg,
       raw ∈ Text.read_lines (ldd_stdout E binary_path)
       /\ o = [Print msg]
       /\ aborting_line E binary_path (path_basename E binary_path) dirs
            raw msg.
Proof.
  intros H.
  destruct (get_deps_cases E binary_path dirs) as [[ret H']|[msg H']];
    rewrite H' in H; simplify_eq.
  by apply (read_loop_abort_line E _ _ _ _ _ _ _ H').
Qed.

Lemma lister_exit_names_line_witness :
  get_deps_for_binary Linux.elsewhere "/opt/app/app" ["/opt/app"]
  = ([Print (not_in_search_path_msg "libX.so" "/usr/local/lib/libX.so")],
     Exit 1)
  /\ exists raw msg,
       raw ∈ Text.read_lines (ldd_stdout Linux.elsewhere "/opt/app/app")
       /\ [Print (not_in_search_path_msg "libX.so" "/usr/local/lib/libX.so")]
          = [Print msg]
       /\ aborting_line Linux.elsewhere "/opt/app/app"
            (path_basename Linux.elsewhere "/opt/app/app") ["/opt/app"]
            raw msg.
Proof.
  assert (H : get_deps_for_binary Linux.elsewhere "/opt/app/app" ["/opt/app"]
              = ([Print (not_in_search_path_msg "libX.so"
                           "/usr/local/lib/libX.so")], Exit 1))
    by (vm_compute; reflexivity).
  split; [exact H|].
  exact (proj2 (lister_exit_names_line Linux.elsewhere "/opt/app/app"
                  ["/opt/app"] _ _ H)).
Defined.

(** ** More on the closure *)

Lemma reach_trans (G : gmap string (list string)) a b c :
  reach G a b -> reach G b c -> reach G a c.
Proof.
  intros Hab. induction 1 as [ds c Hb Hc|c' ds c _ IH Hc' Hc].
  - by eapply reach_step.
  - by eapply reach_step.
Qed.

Lemma reach_first_edge (G : gmap string (list string)) a ds c :
  G !! a = Some ds ->
  reach G a c <-> c ∈ ds \/ exists d, d ∈ ds /\ reach G d c.
Proof.
  intros Ha. split.
  - induction 1 as [ds' c Ha' Hc|b ds' c _ IH Hb Hc].
    + left. congruence.
    + right. destruct IH as [Hb'|(d & Hd & Hdb)].
      * exists b. split; [done|]. by eapply reach_edge.
      * exists d. split; [done|]. by eapply reach_step.
  - intros [Hc|(d & Hd & Hdc)]; [by eapply reach_edge|].
    eapply reach_trans; [by eapply reach_edge | done].
Qed.

(** X8: on every graph, cyclic or not, closed or not, the closure
    terminates, in one of three ways: with [None] when the root has no edge
    list; with a set, which then holds exactly the keys reachable from the
    root along one or more edges, each of them with an edge list; or with a
    [KeyError] at a key that is reachable from the root and has no edge
    list. *)
Theorem closure_outcomes (jd : json_dict) (root : string) :
  match get_all_deps_for_binary root jd with
  | Ok None => jd_binary_deps jd !! root = None
  | Ok (Some res) =>
      is_Some (jd_binary_deps jd !! root)
      /\ (forall k, k ∈ res <-> reach (jd_binary_deps jd) root k)
      /\ (forall k, k ∈ res -> is_Some (jd_binary_deps jd !! k))
  | Raise (KeyError k) =>
      is_Some (jd_binary_deps jd !! root)
      /\ reach (jd_binary_deps jd) root k
      /\ jd_binary_deps jd !! k = None
  | Raise _ | Exit _ | Timeout => False
  end.
Proof.
  destruct (jd_binary_deps jd !! root) as [ds|] eqn:Hroot.
  - pose proof (closure_with_spec list_pop list_pop_valid _ root jd eq_refl
                  (ex_intro _ ds Hroot)) as Hspec.
    unfold get_all_deps_for_binary.
    destruct (closure_with list_pop root jd) as [[res|]|c|[k| | |]|]; try done;
      destruct Hspec; by repeat split.
  - unfold get_all_deps_for_binary, closure_with. by rewrite Hroot.
Qed.

(** X9: on a graph closed under its edge lists the closure composes along
    edges: it returns a set for every key with an edge list; the set of a
    root is made of its direct dependencies and of the sets of those; and
    the set of any key in it is contained in it. *)
Theorem closure_composes (jd : json_dict) (root : string) (ds : list string) :
  closed (jd_binary_deps jd) ->
  jd_binary_deps jd !! root = Some ds ->
  exists res,
    get_all_deps_for_binary root jd = Ok (Some res)
    /\ (forall k, k ∈ res <->
          k ∈ ds
          \/ exists d res_d, d ∈ ds
               /\ get_all_deps_for_binary d jd = Ok (Some res_d) /\ k ∈ res_d)
    /\ (forall k, k ∈ res ->
          exists res_k, get_all_deps_for_binary k jd = Ok (Some res_k)
                        /\ res_k ⊆ res).
Proof.
  intros Hclosed Hroot.
  assert (Hset : forall k, is_Some (jd_binary_deps jd !! k) ->
            exists res, get_all_deps_for_binary k jd = Ok (Some res)
              /\ forall x, x ∈ res <-> reach (jd_binary_deps jd) k x).
  { intros k Hk.
    pose proof (closure_with_spec list_pop list_pop_valid _ k jd eq_refl Hk)
      as Hspec.
    unfold get_all_deps_for_binary.
    destruct (closure_with list_pop k jd) as [[res|]|c|[x| | |]|]; try done.
    - exists res. split; [done | apply Hspec].
    - destruct Hspec as [Hreach Hnone].
      assert (is_Some (jd_binary_deps jd !! x)) as [? ?]; [|congruence].
      inversion Hreach; subst; by eapply Hclosed. }
  destruct (Hset root (ex_intro _ ds Hroot)) as (res & Hres & Hmem).
  exists res. split; [done|]. split.
  - intros k. rewrite Hmem, (reach_first_edge _ _ _ _ Hroot). split.
    + intros [?|(d & Hd & Hdk)]; [by left|]. right.
      destruct (Hset d (Hclosed _ _ _ Hroot Hd)) as (res_d & Hres_d & Hmem_d).
      exists d, res_d. split; [done|]. split; [done|]. by apply Hmem_d.
    + intros [?|(d & res_d & Hd & Hres_d & Hk)]; [by left|]. right.
      exists d. split; [done|].
      destruct (Hset d (Hclosed _ _ _ Hroot Hd)) as (res_d' & Hres_d' & Hmem_d).
      apply Hmem_d. congruence.
  - intros k Hk. apply Hmem in Hk as Hreach.
    assert (Hks : is_Some (jd_binary_deps jd !! k)).
    { inversion Hreach; subst; by eapply Hclosed. }
    destruct (Hset k Hks) as (res_k & Hres_k & Hmem_k).
    exists res_k. split; [done|]. intros x Hx. apply Hmem.
    eapply reach_trans; [done|]. by apply Hmem_k.
Qed.

Lemma closure_composes_witness :
  closed (jd_binary_deps chain_dict)
  /\ jd_binary_deps chain_dict !! "app" = Some ["libA.so"; "libB.so"]
  /\ exists res,
       get_all_deps_for_binary "app" chain_dict = Ok (Some res)
       /\ (forall k, k ∈ res <->
             k ∈ ["libA.so"; "libB.so"]
             \/ exists d res_d, d ∈ ["libA.so"; "libB.so"]
                  /\ get_all_deps_for_binary d chain_dict = Ok (Some res_d)
                  /\ k ∈ res_d)
       /\ (forall k, k ∈ res ->
             exists res_k, get_all_deps_for_binary k chain_dict = Ok (Some res_k)
                           /\ res_k ⊆ res).
Proof.
  assert (Hc : closed (jd_binary_deps chain_dict)).
  { apply closed_check, map_Forall_to_list. vm_compute.
    repeat constructor; by eexists. }
  assert (Hr : jd_binary_deps chain_dict !! "app" = Some ["libA.so"; "libB.so"])
    by reflexivity.
  split; [exact Hc|]. split; [exact Hr|].
  exact (closure_composes chain_dict "app" _ Hc Hr).
Defined.

(** ** Recorded locations never change *)

Section KeepsFacts.
Context (E : Env).

Lemma Keeps_pure {A} (a : A) : Keeps (pure a).
Proof. by intros s. Qed.

Lemma Keeps_bind {A B} (m : M A) (k : A -> M B) :
  Keeps m -> (forall a, Keeps (k a)) -> Keeps (bind m k).
Proof.
  intros Hm Hk s. unfold bind. specialize (Hm s).
  destruct (m s) as [s1 [a|c|e|]]; simpl in *; try done.
  etrans; [done | apply Hk].
Qed.

Lemma Keeps_modify (f : state -> state) :
  (forall s, binary_name_to_location_map s
             ⊆ binary_name_to_location_map (f s)) ->
  Keeps (modify f).
Proof. intros Hf s. apply Hf. Qed.

Lemma Keeps_same {A} (m : M A) :
  (forall s, binary_name_to_location_map (m s).1
             = binary_name_to_location_map s) ->
  Keeps m.
Proof. intros Hm s. by rewrite Hm. Qed.

Lemma Keeps_record_dep dep acc : Keeps (record_dep E dep acc).
Proof.
  intros s. unfold record_dep, bind, get, modify, emit, pure, sys_exit, raise.
  simpl.
  destruct (binary_name_to_location_map s !! dep.1) as [old|] eqn:Hold; simpl.
  - destruct (path_samefile E old dep.2) as [[]|]; simpl; try done.
    by case_decide.
  - case_decide; simpl; by apply insert_subseteq.
Qed.

Lemma Keeps_for_deps l acc : Keeps (for_deps E l acc).
Proof.
  revert acc. induction l as [|dep l IH]; intros acc; simpl.
  - apply Keeps_pure.
  - apply Keeps_bind; [apply Keeps_record_dep | done].
Qed.

Lemma Keeps_list_deps x : Keeps (list_deps E x).
Proof.
  apply Keeps_same. intros s. rewrite list_deps_unfold.
  destruct (binary_name_to_location_map s !! x) as [loc|]; [|done].
  cbv zeta. by destruct (get_deps_for_binary E loc _) as [o [d|c|e|]].
Qed.

Lemma Keeps_mark_and_list x : Keeps (mark_and_list E x).
Proof.
  unfold mark_and_list.
  apply Keeps_bind; [by apply Keeps_modify | intros _].
  apply Keeps_bind; [by apply Keeps_modify | intros _].
  apply Keeps_list_deps.
Qed.

Lemma Keeps_visit x : Keeps (visit E x).
Proof.
  unfold visit.
  apply Keeps_bind; [apply Keeps_mark_and_list | intros deps].
  apply Keeps_bind; [apply Keeps_for_deps | intros acc].
  by apply Keeps_modify.
Qed.

Lemma Keeps_iteration : Keeps (iteration E).
Proof.
  intros s. unfold iteration, bind at 1, get.
  destruct (set_pop E (deps_remaining s)) as [[x remaining]|]; [|done].
  apply (Keeps_bind (modify (set_remaining remaining))
           (fun _ => if decide (x ∈ deps_visited s) then pure tt else visit E x)).
  - by apply Keeps_modify.
  - intros _. case_decide; [apply Keeps_pure | apply Keeps_visit].
Qed.

Lemma Keeps_while fuel : Keeps (while_remaining E fuel).
Proof.
  induction fuel as [|fuel IH]; intros s; simpl;
    destruct (Nat.ltb 0 (size (deps_remaining s))); try done.
  apply (Keeps_bind (iteration E) (fun _ => while_remaining E fuel));
    [apply Keeps_iteration | done].
Qed.

Lemma Keeps_copy_all dir l : Keeps (copy_all dir l).
Proof.
  induction l as [|x l IH]; simpl; [apply Keeps_pure|].
  apply Keeps_bind.
  { apply Keeps_same. intros s. unfold location_of, bind, get. simpl.
    by destruct (_ !! x). }
  intros src. apply Keeps_bind; [by apply Keeps_modify | intros _].
  apply Keeps_bind; [by apply Keeps_modify | intros _]. done.
Qed.

Lemma Keeps_stage a key : Keeps (stage E a key).
Proof.
  intros s. unfold stage, bind at 1, get.
  apply (Keeps_bind
           (call ([], get_all_deps_for_binary key
                        (JsonDict (binary_deps s) (binary_name_to_location_map s))))).
  { by apply Keeps_same. }
  intros [res|]; [|by intros s'].
  apply Keeps_bind; [apply Keeps_copy_all | intros _].
  apply Keeps_bind.
  { destruct (given _); [by apply Keeps_modify | apply Keeps_pure]. }
  intros _. destruct (given _); [by apply Keeps_modify | apply Keeps_pure].
Qed.

Lemma loop_head_keeps_locations n s s' :
  loop_head E n s = Some s' ->
  binary_name_to_location_map s ⊆ binary_name_to_location_map s'.
Proof.
  revert s. induction n as [|n IH]; intros s; simpl.
  - by intros [= <-].
  - destruct (Nat.ltb 0 (size (deps_remaining s))); [|done].
    pose proof (Keeps_iteration s) as Hit.
    destruct (iteration E s) as [s1 [[]|c|e|]]; try done.
    intros Hn. etrans; [exact Hit | by apply IH].
Qed.

End KeepsFacts.

(** X10: a location, once recorded, stays: a turn of the loop, the whole
    loop from any state, and the staging that follows leave every recorded
    location as it is, however they end; so the location recorded for the
    root before the loop is the one in the final state of the run. *)
Theorem locations_are_fixed (E : Env) :
  (forall s,
     binary_name_to_location_map s
     ⊆ binary_name_to_location_map (iteration E s).1)
  /\ (forall fuel s,
        binary_name_to_location_map s
        ⊆ binary_name_to_location_map (while_remaining E fuel s).1)
  /\ (forall fuel a,
        checks_pass E a ->
        binary_name_to_location_map (entry E a)
        ⊆ binary_name_to_location_map (run E fuel a).1).
Proof.
  split; [apply Keeps_iteration|]. split; [intros fuel; apply Keeps_while|].
  intros fuel a Hchecks. destruct (run_unfold E fuel a Hchecks) as [key ->].
  apply (Keeps_bind (while_remaining E fuel) (fun _ => stage E a key)).
  - apply Keeps_while.
  - intros _. apply Keeps_stage.
Qed.

Lemma locations_are_fixed_witness :
  checks_pass Linux.scenario scenario_args
  /\ binary_name_to_location_map (entry Linux.scenario scenario_args)
     ⊆ binary_name_to_location_map (run Linux.scenario 10 scenario_args).1.
Proof.
  assert (Hc : checks_pass Linux.scenario scenario_args) by (repeat split).
  split; [exact Hc|].
  exact (proj2 (proj2 (locations_are_fixed Linux.scenario)) 10 scenario_args Hc).
Defined.

(** ** The edges a visit records *)

Section VisitFacts.
Context (E : Env).

Lemma mark_and_list_unfold x s :
  mark_and_list E x s
  = list_deps E x
      (set_out (out s ++ [Print ("Finding dependencies for " +:+ x)])
         (set_visited ({[x]} ∪ deps_visited s) s)).
Proof. reflexivity. Qed.

(** A completed visit of [x]: the lister was run on the recorded location
    of [x] with that location's directory appended to the search
    directories, and the sorted names of what it returned became the edge
    list of [x]. *)
Lemma visit_edges x s s' :
  visit E x s = (s', Ok tt) ->
  exists loc o deps,
    binary_name_to_location_map s !! x = Some loc
    /\ get_deps_for_binary E loc (search_directories s ++ [path_dirname E loc])
       = (o, Ok deps)
    /\ binary_deps s'
       = <[x := sorted (elements (names_of deps))]> (binary_deps s).
Proof.
  unfold visit, bind at 1. rewrite mark_and_list_unfold, list_deps_unfold. simpl.
  destruct (binary_name_to_location_map s !! x) as [loc|]; [|done].
  destruct (get_deps_for_binary E loc _) as [o [deps|c|e|]] eqn:Hdeps;
    simpl; try done.
  unfold bind.
  match goal with
  | |- context [for_deps E ?l ∅ ?s1] =>
      destruct (for_deps E l ∅ s1) as [s2 [acc|c|e|]] eqn:Hfor; try done
  end.
  apply for_deps_ok in Hfor as [Hacc (_ & Hb2 & _)].
  unfold modify. intros [= <-]. exists loc, o, deps.
  split; [done|]. split; [done|]. simpl. rewrite Hb2. simpl. f_equal. f_equal.
  f_equal. subst acc. apply set_eq. intros d. unfold names_of.
  rewrite elem_of_union, elem_of_list_to_set, elem_of_map, list_elem_of_fmap.
  split.
  - intros [(p & -> & Hp)|?]; [|set_solver]. exists p. split; [done|].
    rewrite set_iter_order_perm in Hp. by apply elem_of_elements.
  - intros (p & -> & Hp). left. exists p. split; [done|].
    rewrite set_iter_order_perm. by apply elem_of_elements.
Qed.

Lemma sorted_Sorted (acc : gset string) :
  Sorted str_le (sorted (elements acc)) /\ NoDup (sorted (elements acc)).
Proof.
  split; [apply (Sorted_merge_sort str_le)|].
  unfold sorted. rewrite merge_sort_Permutation. apply NoDup_elements.
Qed.

End VisitFacts.

(** X11: a completed visit of a binary gives it as edge list the names the
    lister returned for it, once each and in ascending order, whatever the
    order in which the set was iterated; the lister was run on the binary's
    recorded location with that location's directory appended to the
    search directories. *)
Theorem visit_records_sorted_names (E : Env) (x : string) (s s' : state) :
  visit E x s = (s', Ok tt) ->
  exists loc o deps ds,
    binary_name_to_location_map s !! x = Some loc
    /\ get_deps_for_binary E loc (search_directories s ++ [path_dirname E loc])
       = (o, Ok deps)
    /\ binary_deps s' = <[x := ds]> (binary_deps s)
    /\ (forall d, d ∈ ds <-> exists l, (d, l) ∈ deps)
    /\ Sorted str_le ds /\ NoDup ds.
Proof.
  intros (loc & o & deps & Hloc & Hdeps & Hb)%visit_edges.
  exists loc, o, deps, (sorted (elements (names_of deps))).
  split; [done|]. split; [done|]. split; [done|]. split.
  - intros d. rewrite sorted_elem. unfold names_of. rewrite elem_of_map. split.
    + intros ([n l] & -> & Hin). by exists l.
    + intros (l & Hin). by exists (d, l).
  - apply sorted_Sorted.
Qed.

Lemma visit_records_sorted_names_witness :
  let s := set_remaining ∅ (entry Linux.scenario scenario_args) in
  (visit Linux.scenario "app" s).2 = Ok tt
  /\ exists loc o deps ds,
       binary_name_to_location_map s !! "app" = Some loc
       /\ get_deps_for_binary Linux.scenario loc
            (search_directories s ++ [path_dirname Linux.scenario loc])
          = (o, Ok deps)
       /\ binary_deps (visit Linux.scenario "app" s).1
          = <["app" := ds]> (binary_deps s)
       /\ (forall d, d ∈ ds <-> exists l, (d, l) ∈ deps)
       /\ Sorted str_le ds /\ NoDup ds.
Proof.
  intros s.
  assert (H : visit Linux.scenario "app" s
              = ((visit Linux.scenario "app" s).1, Ok tt))
    by (vm_compute; reflexivity).
  split; [by rewrite H|].
  exact (visit_records_sorted_names Linux.scenario "app" s _ H).
Defined.

(** ** No binary depends on itself under its own file name *)

Section SelfEdgeFacts.
Context (E : Env).

Lemma skipped_self my_name l : skipped E my_name my_name l = true.
Proof. unfold skipped. by rewrite String.eqb_refl. Qed.

Lemma lister_omits_own_name binary_path dirs o ret loc :
  get_deps_for_binary E binary_path dirs = (o, Ok ret) ->
  (path_basename E binary_path, loc) ∉ ret.
Proof.
  intros Hret Hin. unfold get_deps_for_binary in Hret.
  apply (read_loop_contents E _ _ _ _ _ _ _
           (fun l => read_lines_truthy (ldd_stdout E binary_path) l) Hret) in Hin.
  destruct Hin as [?|(raw & _ & l & p & _ & Hskip & _)]; [set_solver|].
  by rewrite skipped_self in Hskip.
Qed.

Lemma iteration_no_self s s' :
  graph_inv s -> no_self_edge E s ->
  iteration E s = (s', Ok tt) -> no_self_edge E s'.
Proof.
  intros (_ & Hloc & _) Hself. unfold iteration, bind at 1, get.
  destruct (set_pop E (deps_remaining s)) as [[x rest]|]; [|done].
  unfold bind, modify. case_decide as Hv.
  - intros [= <-]. exact Hself.
  - intros Hvisit.
    pose proof (Keeps_visit E x (set_remaining rest s)) as Hkeep.
    rewrite Hvisit in Hkeep. simpl in Hkeep.
    destruct (visit_edges E _ _ _ Hvisit) as (loc & o & deps & Hx & Hdeps & Hb).
    simpl in Hx, Hdeps, Hb.
    intros k ds loc' Hk Hl Hbase. rewrite Hb in Hk.
    destruct (decide (k = x)) as [->|Hne].
    + rewrite lookup_insert_eq in Hk. injection Hk as <-.
      assert (loc' = loc) as ->.
      { pose proof (lookup_weaken _ _ _ _ Hx Hkeep). congruence. }
      rewrite sorted_elem. unfold names_of. rewrite elem_of_map.
      intros ([n l] & Hn & Hin). simpl in Hn. subst n.
      rewrite <- Hbase in Hin. by eapply lister_omits_own_name.
    + rewrite lookup_insert_ne in Hk by done.
      destruct (Hloc k (ex_intro _ ds Hk)) as [loc0 Hloc0].
      assert (loc' = loc0) as ->.
      { pose proof (lookup_weaken _ _ _ _ Hloc0 Hkeep). congruence. }
      by eapply Hself.
Qed.

Lemma loop_head_no_self n s0 s :
  graph_inv s0 -> no_self_edge E s0 ->
  loop_head E n s0 = Some s -> no_self_edge E s.
Proof.
  revert s0. induction n as [|n IH]; intros s0 Hinv Hself; simpl.
  - by intros [= <-].
  - destruct (Nat.ltb 0 (size (deps_remaining s0))); [|done].
    destruct (iteration E s0) as [s1 [[]|c|e|]] eqn:Hit; try done.
    apply IH; [by eapply iteration_inv | by eapply iteration_no_self].
Qed.

End SelfEdgeFacts.

(** X12: at every loop test the run reaches, a key whose recorded location
    has the key as its base name does not occur in its own edge list: the
    lister never returns the base name of the path it is run on. *)
Theorem no_self_dependency (E : Env) (a : cmd_line_args) (n : nat) (s : state) :
  loop_head E n (entry E a) = Some s -> no_self_edge E s.
Proof.
  apply loop_head_no_self; [apply entry_inv|].
  intros k ds loc Hk. destruct (entry_fields E a) as (Hb & _).
  rewrite Hb in Hk. by rewrite lookup_empty in Hk.
Qed.

Lemma no_self_dependency_witness :
  loop_head Linux.scenario 2 (entry Linux.scenario scenario_args)
  = Some scenario_head
  /\ no_self_edge Linux.scenario scenario_head.
Proof.
  assert (Hh : loop_head Linux.scenario 2 (entry Linux.scenario scenario_args)
               = Some scenario_head) by (vm_compute; reflexivity).
  split; [exact Hh|].
  exact (no_self_dependency Linux.scenario scenario_args 2 scenario_head Hh).
Defined.

(** ** The graph holds the root and what the root reaches, nothing else *)

Section RootedFacts.
Context (E : Env).

Lemma reach_insert_fresh (G : gmap string (list string)) x ds a b :
  G !! x = None -> reach G a b -> reach (<[x := ds]> G) a b.
Proof.
  intros Hx. induction 1 as [ds' b Ha Hb|b ds' c _ IH Hb Hc].
  - eapply reach_edge; [|done]. rewrite lookup_insert_ne; [done|congruence].
  - eapply reach_step; [done| |done]. rewrite lookup_insert_ne; [done|congruence].
Qed.

Lemma visit_pending x s s' :
  visit E x s = (s', Ok tt) ->
  forall k, k ∈ deps_remaining s' ->
    k ∈ deps_remaining s
    \/ exists ds, binary_deps s' !! x = Some ds /\ k ∈ ds.
Proof.
  unfold visit, bind.
  destruct (mark_and_list E x s) as [s1 [deps|c|e|]] eqn:Hmark; try done.
  apply mark_and_list_ok in Hmark as (_ & _ & _ & _ & Hr1 & _).
  destruct (for_deps E _ ∅ s1) as [s2 [acc|c|e|]] eqn:Hfor; try done.
  apply for_deps_ok in Hfor as [Hacc (_ & _ & _ & _ & _ & Hr2)].
  unfold modify. intros [= <-] k. simpl. rewrite Hr2, Hr1.
  intros [?|[Hk _]]; [by left|]. right.
  eexists. split; [apply lookup_insert_eq|].
  apply sorted_elem. subst acc. set_solver.
Qed.

Lemma iteration_rooted root s s' :
  graph_inv s -> rooted root s ->
  iteration E s = (s', Ok tt) -> rooted root s'.
Proof.
  intros (_ & _ & Hvis & _) Hroot. unfold iteration, bind at 1, get.
  destruct (set_pop E (deps_remaining s)) as [[x rest]|] eqn:Hpop; [|done].
  apply set_pop_Some in Hpop as [Hx ->].
  unfold bind, modify. case_decide as Hv.
  - intros [= <-] k. simpl. intros [Hk|Hk]; apply Hroot; [left; set_solver | by right].
  - intros Hvisit.
    destruct (visit_edges E _ _ _ Hvisit) as (loc & o & deps & _ & _ & Hb).
    simpl in Hb.
    assert (Hfresh : binary_deps s !! x = None).
    { destruct (binary_deps s !! x) eqn:Hsome; [|done].
      exfalso. apply Hv, Hvis. by eexists. }
    assert (Hrx : x = root \/ reach (binary_deps s') root x).
    { destruct (Hroot x (or_introl Hx)) as [?|Hr]; [by left|]. right.
      rewrite Hb. by apply reach_insert_fresh. }
    intros k [Hk|Hk].
    + destruct (visit_pending _ _ _ Hvisit k Hk) as [Hk'|(ds & Hds & Hin)].
      * simpl in Hk'. destruct (Hroot k) as [?|Hr]; [left; set_solver|by left|].
        right. rewrite Hb. by apply reach_insert_fresh.
      * right. destruct Hrx as [->|Hr].
        -- by eapply reach_edge.
        -- by eapply reach_step.
    + destruct (decide (k = x)) as [->|Hne]; [done|].
      rewrite Hb, lookup_insert_ne in Hk by done.
      destruct (Hroot k (or_intror Hk)) as [?|Hr]; [by left|].
      right. rewrite Hb. by apply reach_insert_fresh.
Qed.

Lemma loop_head_rooted root n s0 s :
  graph_inv s0 -> rooted root s0 ->
  loop_head E n s0 = Some s -> rooted root s.
Proof.
  revert s0. induction n as [|n IH]; intros s0 Hinv Hroot; simpl.
  - by intros [= <-].
  - destruct (Nat.ltb 0 (size (deps_remaining s0))); [|done].
    destruct (iteration E s0) as [s1 [[]|c|e|]] eqn:Hit; try done.
    apply IH; [by eapply iteration_inv | by eapply iteration_rooted].
Qed.

Lemma entry_rooted a : rooted (path_basename E (target_binary a)) (entry E a).
Proof.
  destruct (entry_fields E a) as (Hb & _ & Hr & _).
  intros k. rewrite Hb, Hr, lookup_empty. intros [Hk|[? ?]]; [|done].
  left. set_solver.
Qed.

End RootedFacts.

(** X13: the builder records nothing unrelated to the root.  At every loop
    test the run reaches, each key that is pending or has an edge list is
    the root or is reachable from the root along recorded edges; when the
    loop ends, the keys of the dependency map are exactly the root and the
    keys reachable from it. *)
Theorem graph_is_rooted (E : Env) (a : cmd_line_args) :
  (forall n s,
     loop_head E n (entry E a) = Some s ->
     rooted (path_basename E (target_binary a)) s)
  /\ (forall fuel s,
        while_remaining E fuel (entry E a) = (s, Ok tt) ->
        forall k,
          is_Some (binary_deps s !! k) <->
          k = path_basename E (target_binary a)
          \/ reach (binary_deps s) (path_basename E (target_binary a)) k).
Proof.
  assert (Hhead : forall n s, loop_head E n (entry E a) = Some s ->
            rooted (path_basename E (target_binary a)) s).
  { intros n s. apply loop_head_rooted; [apply entry_inv | apply entry_rooted]. }
  split; [done|]. intros fuel s Hend k. split.
  - intros Hk. destruct (while_reaches_head E _ _ _ Hend) as (n & Hn & _).
    apply (Hhead n s Hn). by right.
  - intros [->|Hr]; [by eapply root_processed|].
    destruct (loop_end_inv E a fuel s Hend) as (_ & _ & _ & Hclosed).
    inversion Hr; subst; by eapply Hclosed.
Qed.

Lemma graph_is_rooted_witness :
  loop_head Linux.scenario 2 (entry Linux.scenario scenario_args)
  = Some scenario_head
  /\ while_remaining Linux.scenario 10 (entry Linux.scenario scenario_args)
     = (scenario_end, Ok tt)
  /\ rooted (path_basename Linux.scenario (target_binary scenario_args))
       scenario_head
  /\ forall k,
       is_Some (binary_deps scenario_end !! k) <->
       k = path_basename Linux.scenario (target_binary scenario_args)
       \/ reach (binary_deps scenario_end)
            (path_basename Linux.scenario (target_binary scenario_args)) k.
Proof.
  assert (Hh : loop_head Linux.scenario 2 (entry Linux.scenario scenario_args)
               = Some scenario_head) by (vm_compute; reflexivity).
  assert (He : while_remaining Linux.scenario 10
                 (entry Linux.scenario scenario_args)
               = (scenario_end, Ok tt)) by (vm_compute; reflexivity).
  split; [exact Hh|]. split; [exact He|]. split.
  - exact (proj1 (graph_is_rooted Linux.scenario scenario_args) 2 scenario_head Hh).
  - exact (proj2 (graph_is_rooted Linux.scenario scenario_args) 10 scenario_end He).
Defined.

(** ** What a successful run stages *)

Section StageFacts.
Context (E : Env).

Lemma quiet_nothing_staged s :
  quiet s -> copies (out s) = [] /\ documents (out s) = [].
Proof.
  unfold quiet, copies, documents. induction (out s) as [|e tr IH]; [done|].
  intros [He Htr]%Forall_cons. destruct (IH Htr) as [Hc Hd].
  by destruct e; simpl in *; try done; rewrite ?Hc, ?Hd.
Qed.

Lemma copy_all_spec dir l s s' :
  copy_all dir l s = (s', Ok tt) ->
  binary_name_to_location_map s' = binary_name_to_location_map s
  /\ binary_deps s' = binary_deps s
  /\ documents (out s') = documents (out s)
  /\ exists cs, copies (out s') = copies (out s) ++ cs
                /\ Forall2 (copy_of s dir) l cs.
Proof.
  revert s. induction l as [|x l IH]; intros s; simpl.
  - intros [= <-]. repeat split. exists []. by rewrite app_nil_r.
  - unfold bind at 1, location_of, bind at 1, get.
    destruct (binary_name_to_location_map s !! x) as [src|] eqn:Hsrc; [|done].
    unfold pure, bind, emit, modify. simpl.
    intros (Hl & Hb & Hd & cs & Hc & Hcs)%IH. simpl in *.
    split; [done|]. split; [done|]. split.
    + rewrite Hd. unfold documents. by rewrite !omap_app, !app_nil_r.
    + exists ((src, dir) :: cs). split.
      * rewrite Hc. unfold copies. rewrite !omap_app. simpl.
        by rewrite app_nil_r, <- app_assoc.
      * constructor; [done|].
        eapply Forall2_impl; [done|]. by intros y c [? ?].
Qed.

Lemma stage_spec a key s s' :
  stage E a key s = (s', Ok tt) ->
  binary_name_to_location_map s' = binary_name_to_location_map s
  /\ binary_deps s' = binary_deps s
  /\ exists res cs,
       get_all_deps_for_binary key
         (JsonDict (binary_deps s) (binary_name_to_location_map s))
       = Ok (Some res)
       /\ copies (out s') = copies (out s) ++ cs
       /\ Forall2 (copy_of s (output_directory a)) (sorted (elements res)) cs
       /\ documents (out s')
          = documents (out s)
            ++ documents_asked E a
                 (JsonDict (binary_deps s) (binary_name_to_location_map s))
                 (sorted (elements res)).
Proof.
  unfold stage, bind at 1, get, bind at 1, call. simpl.
  destruct (get_all_deps_for_binary key _) as [[res|]|c|e|] eqn:Hres; try done.
  unfold bind at 1.
  destruct (copy_all (output_directory a) (sorted (elements res))
              (set_out (out s ++ []) s)) as [s1 [[]|c|e|]] eqn:Hcopy; try done.
  apply copy_all_spec in Hcopy as (Hl & Hb & Hd & cs & Hc & Hcs).
  simpl in Hl, Hb, Hd, Hc. rewrite app_nil_r in Hd, Hc.
  unfold documents_asked, bind.
  destruct (given (json_arg a)) as [pj|]; destruct (given (manifest_arg a)) as [pm|];
    unfold emit, modify, pure; simpl; intros [= <-]; simpl;
    (split; [done|]); (split; [done|]); exists res, cs;
    (split; [done|]); unfold copies, documents in *;
    rewrite ?omap_app; simpl; rewrite ?app_nil_r, ?Hc, ?Hd;
    (split; [done|]);
    (split; [eapply Forall2_impl; [done|]; by intros y c [? ?] |]);
    by rewrite <- ?app_assoc.
Qed.

Lemma run_unfold_key fuel a :
  checks_pass E a ->
  run E fuel a
  = bind (while_remaining E fuel)
      (fun _ => stage E a (path_basename E (target_binary a))) (entry E a).
Proof.
  intros (Hex & Hfile & Hdir). unfold run, main. rewrite Hex, Hfile, Hdir. simpl.
  unfold traverse_and_stage, entry, bind at 1.
  assert (Hkey : (prepare E a (initial a)).2
                 = Ok (path_basename E (target_binary a))).
  { unfold prepare, bind, emit, modify, pure. simpl. by destruct (_ && _). }
  destruct (prepare E a (initial a)) as [s1 r1]. simpl in Hkey. by subst r1.
Qed.

Lemma entry_quiet a : quiet (entry E a).
Proof.
  apply (Tame_prepare E a (initial a)). constructor.
Qed.

End StageFacts.

(** X14: a run that succeeds has copied into the output directory, in
    ascending order of name and once each, exactly the members of the
    closure of the root computed on the final graph, each from its recorded
    location, and nothing else; and it has written the JSON document and
    the manifest that were asked for with a non-empty path, in that order,
    and no other document. *)
Theorem successful_run_stages_closure (E : Env) (fuel : nat)
    (a : cmd_line_args) (s : state) :
  checks_pass E a ->
  run E fuel a = (s, Ok tt) ->
  exists res,
    get_all_deps_for_binary (path_basename E (target_binary a))
      (JsonDict (binary_deps s) (binary_name_to_location_map s))
    = Ok (Some res)
    /\ Forall2 (copy_of s (output_directory a)) (sorted (elements res))
         (copies (out s))
    /\ documents (out s)
       = documents_asked E a
           (JsonDict (binary_deps s) (binary_name_to_location_map s))
           (sorted (elements res)).
Proof.
  intros Hchecks. rewrite (run_unfold_key E fuel a Hchecks). unfold bind.
  pose proof (Tame_while E fuel (entry E a)) as [Hq _].
  destruct (while_remaining E fuel (entry E a)) as [s2 [[]|c|e|]]; try done.
  simpl in Hq. destruct (quiet_nothing_staged s2 (Hq (entry_quiet E a)))
    as [Hc0 Hd0].
  intros (Hl & Hb & res & cs & Hres & Hc & Hcs & Hd)%stage_spec.
  rewrite Hc0 in Hc. rewrite Hd0 in Hd. simpl in Hc, Hd.
  exists res. rewrite Hl, Hb, Hc, Hd. split; [done|]. split; [|done].
  eapply Forall2_impl; [done|]. intros y c [? ?]. split; [|done]. by rewrite Hl.
Qed.

Lemma successful_run_stages_closure_witness :
  checks_pass Linux.scenario scenario_args
  /\ (run Linux.scenario 10 scenario_args).2 = Ok tt
  /\ copies (out (run Linux.scenario 10 scenario_args).1)
     = [ ("/opt/lib/libA.so", "/out"); ("/opt/lib/libB.so", "/out");
         ("/opt/lib/libC.so", "/out") ]
  /\ exists res,
       get_all_deps_for_binary
         (path_basename Linux.scenario (target_binary scenario_args))
         (JsonDict (binary_deps (run Linux.scenario 10 scenario_args).1)
            (binary_name_to_location_map (run Linux.scenario 10 scenario_args).1))
       = Ok (Some res)
       /\ Forall2 (copy_of (run Linux.scenario 10 scenario_args).1
                     (output_directory scenario_args))
            (sorted (elements res))
            (copies (out (run Linux.scenario 10 scenario_args).1))
       /\ documents (out (run Linux.scenario 10 scenario_args).1)
          = documents_asked Linux.scenario scenario_args
              (JsonDict (binary_deps (run Linux.scenario 10 scenario_args).1)
                 (binary_name_to_location_map
                    (run Linux.scenario 10 scenario_args).1))
              (sorted (elements res)).
Proof.
  assert (Hc : checks_pass Linux.scenario scenario_args) by (repeat split).
  assert (Hr : run Linux.scenario 10 scenario_args
               = ((run Linux.scenario 10 scenario_args).1, Ok tt))
    by (vm_compute; reflexivity).
  split; [exact Hc|]. split; [by rewrite Hr|]. split; [vm_compute; reflexivity|].
  exact (successful_run_stages_closure Linux.scenario 10 scenario_args _ Hc Hr).
Defined.

(** ** Every recorded location was checked *)

Section VerifiedFacts.
Context (E : Env).

Lemma record_dep_locations dep acc s s' r :
  record_dep E dep acc s = (s', r) ->
  forall k loc,
    binary_name_to_location_map s' !! k = Some loc ->
    binary_name_to_location_map s !! k = Some loc \/ (k, loc) = dep.
Proof.
  unfold record_dep, bind, get, modify, emit, pure, sys_exit, raise. simpl.
  destruct (binary_name_to_location_map s !! dep.1) as [old|] eqn:Hold; simpl.
  - destruct (path_samefile E old dep.2) as [[]|]; simpl;
      try case_decide; simpl; intros [= <- _] k loc; simpl; by left.
  - case_decide; simpl; intros [= <- _] k loc; simpl;
      (destruct (decide (k = dep.1)) as [->|Hne];
       [rewrite lookup_insert_eq; intros [= <-]; right; by destruct dep
       |rewrite lookup_insert_ne by done; by left]).
Qed.

Lemma for_deps_locations l acc s s' r :
  for_deps E l acc s = (s', r) ->
  forall k loc,
    binary_name_to_location_map s' !! k = Some loc ->
    binary_name_to_location_map s !! k = Some loc \/ (k, loc) ∈ l.
Proof.
  revert acc s. induction l as [|dep l IH]; intros acc s; simpl.
  - intros [= <- _] k loc. by left.
  - unfold bind.
    destruct (record_dep E dep acc s) as [s1 r1] eqn:Hrec.
    assert (Hstep : forall k loc,
              binary_name_to_location_map s1 !! k = Some loc ->
              binary_name_to_location_map s !! k = Some loc
              \/ (k, loc) ∈ dep :: l).
    { intros k loc Hk.
      destruct (record_dep_locations _ _ _ _ _ Hrec k loc Hk) as [?|<-];
        [by left | right; apply list_elem_of_here]. }
    destruct r1 as [a|c|e|]; try (intros [= <- _]; exact Hstep).
    intros Hfor k loc Hk.
    destruct (IH _ _ Hfor k loc Hk) as [Hk1|Hin]; [by apply Hstep|].
    right. by apply list_elem_of_further.
Qed.

Lemma get_deps_verified binary_path dirs o deps :
  get_deps_for_binary E binary_path dirs = (o, Ok deps) -> verified E dirs deps.
Proof.
  intros H. eapply read_loop_verified; [|exact H].
  intros n loc Hin. set_solver.
Qed.

Lemma visit_locations x s s' :
  visit E x s = (s', Ok tt) ->
  forall k loc,
    binary_name_to_location_map s' !! k = Some loc ->
    binary_name_to_location_map s !! k = Some loc \/ located_by_search E k loc.
Proof.
  unfold visit, bind at 1. rewrite mark_and_list_unfold, list_deps_unfold. simpl.
  destruct (binary_name_to_location_map s !! x) as [loc0|]; [|done].
  destruct (get_deps_for_binary E loc0 _) as [o [deps|c|e|]] eqn:Hdeps;
    simpl; try done.
  apply get_deps_verified in Hdeps.
  unfold bind.
  match goal with
  | |- context [for_deps E ?l ∅ ?s1] =>
      destruct (for_deps E l ∅ s1) as [s2 [acc|c|e|]] eqn:Hfor; try done
  end.
  unfold modify. intros [= <-] k loc Hk. simpl in Hk.
  destruct (for_deps_locations _ _ _ _ _ Hfor k loc Hk) as [?|Hin]; [by left|].
  right. rewrite set_iter_order_perm in Hin. apply elem_of_elements in Hin.
  destruct (Hdeps k loc Hin) as (d & _ & Hex & Hfile & Hfix). by exists d.
Qed.

Lemma iteration_locations s s' :
  iteration E s = (s', Ok tt) ->
  forall k loc,
    binary_name_to_location_map s' !! k = Some loc ->
    binary_name_to_location_map s !! k = Some loc \/ located_by_search E k loc.
Proof.
  unfold iteration, bind at 1, get.
  destruct (set_pop E (deps_remaining s)) as [[x rest]|]; [|done].
  unfold bind, modify. case_decide.
  - intros [= <-] k loc. by left.
  - intros Hvisit k loc Hk. by apply (visit_locations _ _ _ Hvisit).
Qed.

Lemma loop_head_verified a n s0 s :
  locations_verified E a s0 ->
  loop_head E n s0 = Some s -> locations_verified E a s.
Proof.
  revert s0. induction n as [|n IH]; intros s0 Hv; simpl.
  - by intros [= <-].
  - destruct (Nat.ltb 0 (size (deps_remaining s0))); [|done].
    destruct (iteration E s0) as [s1 [[]|c|e|]] eqn:Hit; try done.
    apply IH. intros k loc Hk.
    destruct (iteration_locations _ _ Hit k loc Hk) as [?|?]; [by apply Hv | by right].
Qed.

End VerifiedFacts.

(** X16: no location is recorded unchecked.  At every loop test the run
    reaches, and in the final state of a run that succeeds, every recorded
    location other than the one recorded for the root before the loop is,
    up to [fix_location], the path of a file of that name in some directory
    that was seen to exist and to be a regular file. *)
Theorem recorded_locations_are_verified (E : Env) (a : cmd_line_args) :
  (forall n s,
     loop_head E n (entry E a) = Some s -> locations_verified E a s)
  /\ (forall fuel s,
        checks_pass E a ->
        run E fuel a = (s, Ok tt) -> locations_verified E a s).
Proof.
  assert (Hhead : forall n s, loop_head E n (entry E a) = Some s ->
            locations_verified E a s).
  { intros n s. apply loop_head_verified. intros k loc Hk. by left. }
  split; [done|]. intros fuel s Hchecks.
  rewrite (run_unfold_key E fuel a Hchecks). unfold bind.
  destruct (while_remaining E fuel (entry E a)) as [s2 [[]|c|e|]] eqn:Hw;
    try done.
  destruct (while_reaches_head E _ _ _ Hw) as (n & Hn & _).
  intros (Hl & _)%stage_spec. intros k loc. rewrite Hl. by apply (Hhead n s2).
Qed.

Lemma recorded_locations_are_verified_witness :
  checks_pass Linux.scenario scenario_args
  /\ (run Linux.scenario 10 scenario_args).2 = Ok tt
  /\ locations_verified Linux.scenario scenario_args
       (run Linux.scenario 10 scenario_args).1.
Proof.
  assert (Hc : checks_pass Linux.scenario scenario_args) by (repeat split).
  assert (Hr : run Linux.scenario 10 scenario_args
               = ((run Linux.scenario 10 scenario_args).1, Ok tt))
    by (vm_compute; reflexivity).
  split; [exact Hc|]. split; [by rewrite Hr|].
  exact (proj2 (recorded_locations_are_verified Linux.scenario scenario_args)
           10 _ Hc Hr).
Defined.

(** ** Locations off Windows *)

(** X17: on a platform other than win32 the lister leaves the paths it
    finds as they are: every pair it returns holds a name and the path made
    by joining one of the search directories with that name, a path that
    exists and is a regular file. *)
Theorem lister_locations_off_windows (E : Env) (binary_path : string)
    (dirs : list string) (o : list event) (ret : gset (string * string))
    (dep_name loc : string) :
  String.eqb (platform E) "win32" = false ->
  get_deps_for_binary E binary_path dirs = (o, Ok ret) ->
  (dep_name, loc) ∈ ret ->
  exists d, d ∈ dirs /\ loc = path_join E d dep_name
            /\ path_exists E loc = true /\ path_isfile E loc = true.
Proof.
  intros Hplat Hret Hin.
  destruct (get_deps_verified E _ _ _ _ Hret dep_name loc Hin)
    as (d & Hd & Hex & Hfile & Hfix).
  unfold fix_location in Hfix. rewrite Hplat in Hfix. injection Hfix as <-.
  by exists d.
Qed.

Lemma lister_locations_off_windows_witness :
  String.eqb (platform Linux.scenario) "win32" = false
  /\ get_deps_for_binary Linux.scenario "/opt/app/app" ["/opt/lib"; "/opt/app"]
     = ([], Ok ({[ ("libA.so", "/opt/lib/libA.so") ]}
                ∪ {[ ("libB.so", "/opt/lib/libB.so") ]}))
  /\ exists d, d ∈ ["/opt/lib"; "/opt/app"]
               /\ "/opt/lib/libA.so" = path_join Linux.scenario d "libA.so"
               /\ path_exists Linux.scenario "/opt/lib/libA.so" = true
               /\ path_isfile Linux.scenario "/opt/lib/libA.so" = true.
Proof.
  assert (H : get_deps_for_binary Linux.scenario "/opt/app/app"
                ["/opt/lib"; "/opt/app"]
              = ([], Ok ({[ ("libA.so", "/opt/lib/libA.so") ]}
                         ∪ {[ ("libB.so", "/opt/lib/libB.so") ]})))
    by (vm_compute; reflexivity).
  split; [reflexivity|]. split; [exact H|].
  refine (lister_locations_off_windows Linux.scenario "/opt/app/app"
            ["/opt/lib"; "/opt/app"] _ _ "libA.so" "/opt/lib/libA.so"
            eq_refl H _).
  apply elem_of_union. left. by apply elem_of_singleton.
Defined.

(** ** Each binary is listed once *)

Section LogFacts.
Context (E : Env).

Lemma record_dep_out dep acc s s' acc' :
  record_dep E dep acc s = (s', Ok acc') -> out s' = out s.
Proof.
  unfold record_dep, bind, get, modify, emit, pure, sys_exit, raise. simpl.
  destruct (binary_name_to_location_map s !! dep.1) as [old|]; simpl.
  - destruct (path_samefile E old dep.2) as [[]|]; simpl; try done.
    case_decide; simpl; by intros [= <- _].
  - case_decide; simpl; by intros [= <- _].
Qed.

Lemma for_deps_out l acc s s' acc' :
  for_deps E l acc s = (s', Ok acc') -> out s' = out s.
Proof.
  revert acc s. induction l as [|dep l IH]; intros acc s; simpl.
  - by intros [= <- _].
  - unfold bind. destruct (record_dep E dep acc s) as [s1 [a|c|e|]] eqn:Hrec;
      try done.
    intros ->%IH. by eapply record_dep_out.
Qed.

Lemma visit_log x s s' :
  visit E x s = (s', Ok tt) ->
  out s' = out s ++ [announcement x]
  /\ deps_visited s' = {[x]} ∪ deps_visited s.
Proof.
  unfold visit, bind at 1. rewrite mark_and_list_unfold, list_deps_unfold. simpl.
  destruct (binary_name_to_location_map s !! x) as [loc|]; [|done].
  destruct (get_deps_cases E loc (search_directories s ++ [path_dirname E loc]))
    as [[deps ->]|[msg ->]]; simpl; [|done].
  unfold bind.
  match goal with
  | |- context [for_deps E ?l ∅ ?s1] =>
      destruct (for_deps E l ∅ s1) as [s2 [acc|c|e|]] eqn:Hfor; try done
  end.
  pose proof (for_deps_out _ _ _ _ _ Hfor) as Hout.
  apply for_deps_ok in Hfor as [_ (_ & _ & Hv & _)].
  unfold modify. intros [= <-]. simpl. rewrite Hout, Hv. simpl.
  by rewrite app_nil_r.
Qed.

Lemma iteration_log s s' :
  iteration E s = (s', Ok tt) ->
  (out s' = out s /\ deps_visited s' = deps_visited s)
  \/ exists x, (x ∉ deps_visited s)
               /\ out s' = out s ++ [announcement x]
               /\ deps_visited s' = {[x]} ∪ deps_visited s.
Proof.
  unfold iteration, bind at 1, get.
  destruct (set_pop E (deps_remaining s)) as [[x rest]|]; [|done].
  unfold bind, modify. case_decide as Hv.
  - intros [= <-]. by left.
  - intros [Hout Hvis]%visit_log. right. by exists x.
Qed.

Lemma loop_head_log base n s0 s order0 :
  out s0 = base ++ (announcement <$> order0) ->
  NoDup order0 ->
  (forall x, x ∈ order0 <-> x ∈ deps_visited s0) ->
  loop_head E n s0 = Some s ->
  exists order,
    out s = base ++ (announcement <$> order)
    /\ NoDup order
    /\ forall x, x ∈ order <-> x ∈ deps_visited s.
Proof.
  revert s0 order0. induction n as [|n IH]; intros s0 order0 Hout Hnd Hmem; simpl.
  - intros [= <-]. by exists order0.
  - destruct (Nat.ltb 0 (size (deps_remaining s0))); [|done].
    destruct (iteration E s0) as [s1 [[]|c|e|]] eqn:Hit; try done.
    destruct (iteration_log _ _ Hit) as [[Ho Hv]|(x & Hx & Ho & Hv)].
    + apply (IH s1 order0); [congruence | done|].
      intros y. by rewrite Hv.
    + apply (IH s1 (order0 ++ [x])).
      * rewrite Ho, Hout, fmap_app, app_assoc. done.
      * apply NoDup_app. split; [done|]. split; [|apply NoDup_singleton].
        intros y Hy ->%list_elem_of_singleton. by apply Hx, Hmem.
      * intros y. rewrite elem_of_app, list_elem_of_singleton, Hv, Hmem.
        set_solver.
Qed.

End LogFacts.

(** X18: each binary is listed once.  At every loop test the run reaches,
    what the loop has printed is one announcement per binary that has an
    edge list, each binary announced once, and nothing else. *)
Theorem visits_are_logged_once (E : Env) (a : cmd_line_args) (n : nat)
    (s : state) :
  loop_head E n (entry E a) = Some s ->
  exists order,
    out s = out (entry E a) ++ (announcement <$> order)
    /\ NoDup order
    /\ forall x, x ∈ order <-> is_Some (binary_deps s !! x).
Proof.
  intros Hn.
  destruct (loop_head_log E (out (entry E a)) n (entry E a) s []) as
    (order & Hout & Hnd & Hmem); try done.
  - simpl. by rewrite app_nil_r.
  - constructor.
  - intros x. destruct (entry_fields E a) as (_ & -> & _). set_solver.
  - exists order. split; [done|]. split; [done|]. intros x. rewrite Hmem.
    by apply (loop_head_inv E n _ s (entry_inv E a) Hn).
Qed.

Lemma visits_are_logged_once_witness :
  loop_head Linux.scenario 2 (entry Linux.scenario scenario_args)
  = Some scenario_head
  /\ exists order,
       out scenario_head
       = out (entry Linux.scenario scenario_args) ++ (announcement <$> order)
       /\ NoDup order
       /\ forall x, x ∈ order <-> is_Some (binary_deps scenario_head !! x).
Proof.
  assert (Hh : loop_head Linux.scenario 2 (entry Linux.scenario scenario_args)
               = Some scenario_head) by (vm_compute; reflexivity).
  split; [exact Hh|].
  exact (visits_are_logged_once Linux.scenario scenario_args 2 scenario_head Hh).
Defined.
